(** * KOMA audio analysis service: streaming session, PCM decoder, one-shot endpoint

    A shallow embedding of [main.py] and [Music_Anaylizer.py] (with the two
    thin wrappers of [bpm_detection.py] and [key_detection.py]) and the
    properties the specification states about them.

    Conventions of the embedding
    - a Python call that may raise returns [exn + A]: [inl e] is "raised e",
      [inr a] is "returned a";
    - [bytes] / [bytearray] are [list byte]; [len] is a [Z];
    - an int16 sample divided by 32768.0 in float32 is exact (16 significant
      bits, a power-of-two divisor), so a decoded sample is the rational
      [s # 32768];
    - librosa, essentia, soundfile and Python's float formatter are not code
      of this repository: they form the interface [Libraries];
    - [print] calls write to the server log only and are left out. *)

From Stdlib Require Import ZArith List String Ascii Bool Lia QArith Qround.
From Stdlib Require Import Strings.Byte DecimalString.
Import ListNotations.

Local Open Scope string_scope.
Local Open Scope list_scope.
Local Open Scope Z_scope.

(** ** Python values and exceptions *)

Module Py.

(** The exception classes that occur; [ExternalError] stands for any other
    subclass of [Exception] raised inside a library or by the transport. *)
Inductive exn : Type :=
| ValueError (msg : string)
| TypeError (msg : string)
| IndexError (msg : string)
| AttributeError (msg : string)
| HTTPException (status_code : Z) (detail : string)
| ExternalError (msg : string).

(** [str(e)] *)
Definition exn_str (e : exn) : string :=
  match e with
  | ValueError m | TypeError m | IndexError m | AttributeError m
  | ExternalError m => m
  | HTTPException _ d => d
  end.

Definition result (A : Type) : Type := (exn + A)%type.

Definition ret {A} (a : A) : result A := inr a.
Definition raise {A} (e : exn) : result A := inl e.

Definition bind {A B} (r : result A) (k : A -> result B) : result B :=
  match r with
  | inl e => inl e
  | inr a => k a
  end.

(** [try: body  except Exception as e: handler e] *)
Definition try_except {A} (body : result A) (handler : exn -> result A)
  : result A :=
  match body with
  | inl e => handler e
  | inr a => inr a
  end.

Definition raised {A} (r : result A) : Prop := exists e, r = inl e.

(** [len(x)] *)
Definition len {A} (l : list A) : Z := Z.of_nat (List.length l).

(** [x[:n]] for a non-negative [n] *)
Definition slice_to {A} (n : Z) (l : list A) : list A :=
  firstn (Z.to_nat n) l.

End Py.

Import Py.

Notation "x <- c1 ;; c2" := (bind c1 (fun x => c2))
  (at level 61, c1 at next level, right associativity).
Notation "' pat <- c1 ;; c2" :=
  (bind c1 (fun x_ => match x_ with pat => c2 end))
  (at level 61, pat pattern, c1 at next level, right associativity).

(** ** numpy arrays, as far as [decode_pcm] uses them *)

Module Np.

(** A one-dimensional array, or a two-dimensional one of shape
    [(rows, cols)] as [reshape((-1, cols))] produces it. *)
Inductive ndarray (A : Type) : Type :=
| Arr1 (data : list A)
| Arr2 (cols : Z) (rows : list (list A)).

Arguments Arr1 {A} data.
Arguments Arr2 {A} cols rows.

(** [a.size] *)
Definition size {A} (a : ndarray A) : Z :=
  match a with
  | Arr1 d => len d
  | Arr2 c r => len r * c
  end.

Definition amap {A B} (f : A -> B) (a : ndarray A) : ndarray B :=
  match a with
  | Arr1 d => Arr1 (map f d)
  | Arr2 c r => Arr2 c (map (map f) r)
  end.

(** One little-endian signed 16-bit integer. *)
Definition int16_le (lo hi : byte) : Z :=
  let u := Z.of_N (Byte.to_N lo) + 256 * Z.of_N (Byte.to_N hi) in
  if u <? 32768 then u else u - 65536.

Fixpoint int16_seq (b : list byte) : list Z :=
  match b with
  | lo :: hi :: rest => int16_le lo hi :: int16_seq rest
  | _ => []
  end.

(** [np.frombuffer(b, dtype=np.int16)] *)
Definition frombuffer_int16 (b : list byte) : result (ndarray Z) :=
  if len b mod 2 =? 0 then ret (Arr1 (int16_seq b))
  else raise (ValueError "buffer size must be a multiple of element size").

Fixpoint rows_of {A} (c : nat) (l : list A) (k : nat) (cur : list A)
  : list (list A) :=
  match l with
  | [] => []
  | x :: t =>
      match k with
      | O | S O => rev (x :: cur) :: rows_of c t c []
      | S k' => rows_of c t k' (x :: cur)
      end
  end.

(** [a.reshape((-1, c))] on a one-dimensional array, for [c > 1] *)
Definition reshape_rows {A} (c : Z) (a : list A) : result (ndarray A) :=
  if len a mod c =? 0
  then ret (Arr2 c (rows_of (Z.to_nat c) a (Z.to_nat c) []))
  else raise (ValueError "cannot reshape array into shape (-1, channels)").

(** [a.reshape(-1)] *)
Definition reshape_flat {A} (a : ndarray A) : ndarray A :=
  match a with
  | Arr1 d => Arr1 d
  | Arr2 _ r => Arr1 (List.concat r)
  end.

(** [a.astype(np.float32) / 32768.0], exactly *)
Definition to_unit_range (a : ndarray Z) : ndarray Q :=
  amap (fun s => Qmake s 32768) a.

End Np.

Import Np.

(** ** main.py: [decode_pcm]

    [np.frombuffer] reads the samples in native byte order, little-endian on
    the machines the service runs on.  The [isinstance] check after the
    division cannot fail and the [print] only logs. *)

Definition decode_pcm (pcm_bytes : list byte) (sample_rate : Z) (channels : Z)
  : result (ndarray Q * Z) :=
  match pcm_bytes with
  | [] => raise (ValueError "Empty audio buffer")
  | _ =>
      audio <- try_except
                 (audio <- frombuffer_int16 pcm_bytes ;;
                  if size audio =? 0
                  then raise (ValueError "Decoded audio buffer is empty")
                  else ret audio)
                 (fun e => raise (ValueError
                                    ("Failed to convert buffer: " ++ exn_str e))) ;;
      audio <- (if 1 <? channels
                then match audio with
                     | Arr1 d => reshape_rows channels d
                     | Arr2 _ _ => ret audio
                     end
                else ret (reshape_flat audio)) ;;
      ret (to_unit_range audio, sample_rate)
  end.


(** ** The libraries the analyzer calls

    librosa's beat tracker, essentia's key extractor, soundfile's reader and
    the float arithmetic and formatting of Python are taken as an interface.
    Depending on its version and on the input librosa returns the tempo as
    a one-element array, as a numpy scalar, or, when the signal has no
    onsets at all (silence), as a plain Python float; the three shapes are
    kept, since [find_bpm] indexes the value. *)

Inductive tempo (F : Type) : Type :=
| TempoScalar (x : F)
| TempoArray (xs : list F)
| TempoFloat (x : F).

Arguments TempoScalar {F} x.
Arguments TempoArray {F} xs.
Arguments TempoFloat {F} x.

Class Libraries : Type := {
  Float : Type;
  (** [x * 100] *)
  times100 : Float -> Float;
  (** ["{:.<prec>f}".format(x)] on a float *)
  format_fixed : nat -> Float -> string;
  (** [librosa.beat.beat_track(y=audio, sr=sample_rate)]: tempo and beat frames *)
  beat_track : ndarray Q -> Z -> result (tempo Float * list Z);
  (** [essentia.standard.KeyExtractor()(audio)] *)
  KeyExtractor : ndarray Q -> result (string * string * Float);
  (** [soundfile.read(io.BytesIO(audio_bytes))]: samples and sample rate *)
  sf_read : list byte -> result (ndarray Q * Z)
}.

(** The dynamically typed values that reach a format specification. *)
Inductive pyval `{Libraries} : Type :=
| PyStr (s : string)
| PyFloat (x : Float).

(** A positional argument at a call site. *)
Inductive pyarg : Type :=
| ArgInt (n : Z)
| ArgArray (a : ndarray Q).

Section PythonCalls.
Context `{Libraries}.

(** [format(v, ".<prec>f")]: only numbers accept the presentation type [f]. *)
Definition format_f (prec : nat) (v : pyval) : result string :=
  match v with
  | PyFloat x => ret (format_fixed prec x)
  | PyStr _ =>
      raise (ValueError "Unknown format code 'f' for object of type 'str'")
  end.

(** [t[0]] *)
Definition index0 (t : tempo Float) : result Float :=
  match t with
  | TempoScalar _ => raise (IndexError "invalid index to scalar variable.")
  | TempoArray [] =>
      raise (IndexError "index 0 is out of bounds for axis 0 with size 0")
  | TempoArray (x :: _) => ret x
  | TempoFloat _ => raise (TypeError "'float' object is not subscriptable")
  end.

(** A call [f(a, *extra)] of a function declared [def f(a)]. *)
Definition call_unary {A B} (name : string) (f : A -> result B)
    (a : A) (extra : list pyarg) : result B :=
  match extra with
  | [] => f a
  | _ :: _ =>
      raise (TypeError
               (name ++ "() takes 1 positional argument but "
                ++ NilEmpty.string_of_uint (Nat.to_uint (S (List.length extra)))
                ++ " were given"))
  end.

End PythonCalls.

(** ** bpm_detection.py and key_detection.py *)

Section Detection.
Context `{Libraries}.

(** [BPM().detect_BPM(audio, sample_rate)] *)
Definition detect_BPM (audio : ndarray Q) (sample_rate : Z)
  : result (tempo Float) :=
  '(tempo, _) <- beat_track audio sample_rate ;;
  ret tempo.

(** [Key_Detection().detect_keySignature(audio)] *)
Definition detect_keySignature (audio : ndarray Q)
  : result (string * string * Float) :=
  '(key, scale, strength) <- KeyExtractor audio ;;
  ret (key, scale, strength).

End Detection.

(** ** Music_Anaylizer.py *)

Section MusicAnalyzer.
Context `{Libraries}.

Definition find_bpm (audio : ndarray Q) : result string :=
  find_bpm <- detect_BPM audio 44100 ;;
  find_bpm <- index0 find_bpm ;;
  find_bpm <- format_f 3 (PyFloat find_bpm) ;;
  ret find_bpm.

Definition find_keysig (audio : ndarray Q) : result (string * string * pyval) :=
  key_sig <- detect_keySignature audio ;;
  let '(key, scale, strength) := key_sig in
  let strength := PyFloat (times100 strength) in
  strength <- format_f 2 strength ;;
  let strength := PyStr (strength ++ "%") in
  ret (key, scale, strength).

End MusicAnalyzer.

(** ** JSON payloads *)

#[warnings="-register-all"]
Inductive json `{Libraries} : Type :=
| JStr (s : string)
| JNum (x : Float)
| JArr (items : list json)
| JObj (fields : list (string * json)).

Definition json_of_pyval `{Libraries} (v : pyval) : json :=
  match v with
  | PyStr s => JStr s
  | PyFloat x => JNum x
  end.

(** ** main.py: the one-shot endpoint *)

Module OneShot.

Definition API_KEY : string := "your-secret-key".

(** Header names arrive lower-cased; [headers.get] returns the first match. *)
Fixpoint headers_get (headers : list (string * string)) (name : string)
  : option string :=
  match headers with
  | [] => None
  | (k, v) :: rest => if String.eqb k name then Some v else headers_get rest name
  end.

Record UploadFile : Type := { read : result (list byte) }.

Record Request : Type := {
  headers : list (string * string);
  file : UploadFile
}.

Definition verify_api_key (request : Request) : result unit :=
  let key := headers_get (headers request) "x-api-key" in
  if negb (match key with
           | Some k => String.eqb k API_KEY
           | None => false
           end)
  then raise (HTTPException 403 "Unauthorized")
  else ret tt.

Inductive response `{Libraries} : Type :=
| Returned (body : json)
| JSONResponse (status_code : Z) (content : json)
| ErrorResponse (status_code : Z) (detail : string).

(** What the endpoint did with the upload. *)
Inductive access : Type :=
| ReadUpload      (* [await file.read()] was called *)
| DecodeUpload.   (* [sf.read] was called *)

Section Endpoint.
Context `{Libraries}.

(** [except Exception as e: return JSONResponse(status_code=500, ...)] *)
Definition server_error (e : exn) : response :=
  JSONResponse 500 (JObj [("error", JStr (exn_str e))]).

(** The body of [analyze_audio], with the accesses to the upload it made. *)
Definition analyze_audio (file : UploadFile) : response * list access :=
  match read file with
  | inl e => (server_error e, [ReadUpload])
  | inr audio_bytes =>
      (match
          '(y, sr) <- sf_read audio_bytes ;;
          bpm <- call_unary "find_bpm" find_bpm y [ArgInt sr] ;;
          key <- call_unary "find_keysig" find_keysig y [ArgInt sr] ;;
          let '(tonic, scale, strength) := key in
          ret (JObj [("bpm", JStr bpm);
                     ("key", JArr [JStr tonic; JStr scale;
                                   json_of_pyval strength]);
                     ("status", JStr "Detected")])
        with
        | inr body => Returned body
        | inl e => server_error e
        end,
       [ReadUpload; DecodeUpload])
  end.

(** The endpoint as FastAPI runs it for a request that has matched its
    route: the dependency [Depends(verify_api_key)] first, an exception it
    raises being the response, then the body.  Whether an HTTP request gets
    that far is decided by [app] below.  The log lists the calls the body
    of [analyze_audio] makes on the upload; FastAPI has received and parsed
    the request body before either runs, and that is not part of it. *)
Definition post_analyze (request : Request) : response * list access :=
  match verify_api_key request with
  | inl (HTTPException status_code detail) =>
      (ErrorResponse status_code detail, [])
  | inl e => (ErrorResponse 500 (exn_str e), [])
  | inr _ => analyze_audio (file request)
  end.

(** An HTTP request as it reaches the application: method, path of the
    request target, and the rest. *)
Record HttpRequest : Type := {
  method : string;
  path : string;
  request : Request
}.


(** The path given to [@app.post("analyze")], as written: no leading slash. *)
Definition route_path : string := "analyze".

(** A route without parameters matches the request paths equal to it. *)
Definition route_matches (path : string) : bool := String.eqb path route_path.

(** The application with its single route: a path that matches no route is
    answered 404, a matching path with another method 405, and a matching
    POST is handed to the endpoint. *)
Definition app (r : HttpRequest) : response :=
  if route_matches (path r)
  then if String.eqb (method r) "POST"
       then fst (post_analyze (request r))
       else ErrorResponse 405 "Method Not Allowed"
  else ErrorResponse 404 "Not Found".

End Endpoint.

End OneShot.

(** ** Python [str.strip] and [str.lower]

    A text frame is modelled as a string of code points below 256. *)

Module Str.

(** [c.isspace()] *)
Definition isspace (c : ascii) : bool :=
  let n := Z.of_N (N_of_ascii c) in
  ((9 <=? n) && (n <=? 13)) || ((28 <=? n) && (n <=? 32))
  || (n =? 133) || (n =? 160).

Fixpoint lstrip_chars (s : list ascii) : list ascii :=
  match s with
  | c :: s' => if isspace c then lstrip_chars s' else s
  | [] => []
  end.

(** [s.strip()] *)
Definition strip (s : string) : string :=
  string_of_list_ascii
    (rev (lstrip_chars (rev (lstrip_chars (list_ascii_of_string s))))).

Definition lower_char (c : ascii) : ascii :=
  let n := Z.of_N (N_of_ascii c) in
  if ((65 <=? n) && (n <=? 90))
     || ((192 <=? n) && (n <=? 222) && negb (n =? 215))
  then ascii_of_N (Z.to_N (n + 32))
  else c.

(** [s.lower()] *)
Fixpoint lower (s : string) : string :=
  match s with
  | EmptyString => EmptyString
  | String c s' => String (lower_char c) (lower s')
  end.

End Str.

(** ** main.py: the streaming endpoint *)

Module Stream.

Definition SAMPLE_RATE : Z := 44100.
Definition CHANNELS : Z := 1.
Definition SECONDS : Z := 5.
Definition BYTES_PER_SAMPLE : Z := 2.
Definition TARGET_SIZE : Z :=
  SAMPLE_RATE * CHANNELS * BYTES_PER_SAMPLE * SECONDS.

(** The dict [websocket.receive()] returns: a key is absent ([None]), or
    present with the value [None] ([Some None]) or with a payload. *)
Record message : Type := {
  msg_bytes : option (option (list byte));
  msg_text : option (option string)
}.

(** A binary and a text frame as uvicorn delivers them: one key each. *)
Definition binary (chunk : list byte) : message :=
  {| msg_bytes := Some (Some chunk); msg_text := None |}.
Definition text (s : string) : message :=
  {| msg_bytes := None; msg_text := Some (Some s) |}.

Section Session.
Context `{Libraries}.

(** What the handler asks of the connection. *)
Inductive frame : Type :=
| Accept
| SendJson (payload : json)
| Close (code : Z).

(** The connection as the handler sees it: [wire] is what has been handed to
    the transport so far; [faults] scripts the transport, one entry per call
    ([Some e]: the call raises [e]); an exhausted script means every further
    call succeeds. *)
Record WebSocket : Type := {
  faults : list (option exn);
  wire : list frame
}.

Definition io (A : Type) : Type := WebSocket -> result A * WebSocket.

Definition io_ret {A} (a : A) : io A := fun ws => (inr a, ws).

Definition io_bind {A B} (m : io A) (k : A -> io B) : io B :=
  fun ws =>
    match m ws with
    | (inl e, ws') => (inl e, ws')
    | (inr a, ws') => k a ws'
    end.

Definition lift {A} (r : result A) : io A := fun ws => (r, ws).

(** [try: body  except Exception as e: handler e], around effects *)
Definition io_try {A} (body : io A) (handler : exn -> io A) : io A :=
  fun ws =>
    match body ws with
    | (inl e, ws') => handler e ws'
    | (inr a, ws') => (inr a, ws')
    end.

Definition transmit (f : frame) : io unit :=
  fun ws =>
    match faults ws with
    | Some e :: fs => (inl e, {| faults := fs; wire := wire ws |})
    | None :: fs => (inr tt, {| faults := fs; wire := wire ws ++ [f] |})
    | [] => (inr tt, {| faults := []; wire := wire ws ++ [f] |})
    end.

Definition send_json (payload : json) : io unit := transmit (SendJson payload).

Definition error_result : json :=
  JObj [("bpm", JStr "Unknown"); ("key", JStr "Unknown");
        ("status", JStr "Error")].

Definition stopped_result : json := JObj [("status", JStr "Stopped")].

Definition detected_result (bpm key_str strength : string) : json :=
  JObj [("bpm", JStr bpm); ("key", JStr key_str);
        ("strength", JStr strength); ("status", JStr "Detected")].

(** Lines 78-94 up to the send: decode, estimate, build the payload.  The
    [isinstance] check cannot fail on what [decode_pcm] returns. *)
Definition analyze_window (window : list byte) : result json :=
  '(y, sr) <- decode_pcm window SAMPLE_RATE CHANNELS ;;
  _ <- (if size y =? 0
        then raise (ValueError "Received empty audio array")
        else ret tt) ;;
  bpm <- find_bpm y ;;
  '(key, scale, strength) <- find_keysig y ;;
  let key_str := (key ++ scale)%string in
  strength <- format_f 1 strength ;;
  ret (detected_result bpm key_str (strength ++ "%")).

(** The inner [try]/[except] of lines 77-102. *)
Definition process_window (window : list byte) : io unit :=
  io_try
    (io_bind (lift (analyze_window window)) send_json)
    (fun processing_error => send_json error_result).

(** Lines 74-76 and 105 seen as the window accumulator: append the chunk;
    at or above the target hand out the first [TARGET_SIZE] bytes and clear. *)
Definition ingest (audio_buffer chunk : list byte)
  : option (list byte) * list byte :=
  let audio_buffer := audio_buffer ++ chunk in
  if TARGET_SIZE <=? len audio_buffer
  then (Some (slice_to TARGET_SIZE audio_buffer), [])
  else (None, audio_buffer).

Inductive control : Type :=
| Continue (audio_buffer : list byte)
| Break.

(** One iteration of the [while True] loop, after [receive] returned [msg]. *)
Definition session_body (audio_buffer : list byte) (msg : message)
  : io control :=
  match msg_bytes msg with
  | Some None => lift (raise (TypeError "'NoneType' object is not iterable"))
  | Some (Some chunk) =>
      match ingest audio_buffer chunk with
      | (Some window, cleared) =>
          io_bind (process_window window) (fun _ => io_ret (Continue cleared))
      | (None, audio_buffer) => io_ret (Continue audio_buffer)
      end
  | None =>
      match msg_text msg with
      | Some None =>
          lift (raise (AttributeError
                         "'NoneType' object has no attribute 'strip'"))
      | Some (Some t) =>
          if String.eqb (Str.lower (Str.strip t)) "stop"
          then io_bind (send_json stopped_result) (fun _ => io_ret Break)
          else io_ret (Continue audio_buffer)
      | None => io_ret (Continue audio_buffer)
      end
  end.

(** How a run of the handler over a finite inbox ends: suspended in
    [receive] with the buffer it holds, returned after the [finally] block,
    or failed in [accept] outside the [try]. *)
Inductive outcome : Type :=
| Awaiting (audio_buffer : list byte) (ws : WebSocket)
| Closed (ws : WebSocket)
| Failed (e : exn) (ws : WebSocket).

(** The [finally] block: close with code 1000, swallowing any error. *)
Definition finish (ws : WebSocket) : outcome :=
  Closed (snd (transmit (Close 1000) ws)).

(** The [while True] loop inside the outer [try]; the inbox lists what the
    successive [receive] calls return or raise. *)
Fixpoint session_loop (audio_buffer : list byte)
    (inbox : list (result message)) (ws : WebSocket) : outcome :=
  match inbox with
  | [] => Awaiting audio_buffer ws
  | inl e :: _ => finish ws
  | inr msg :: rest =>
      match session_body audio_buffer msg ws with
      | (inr (Continue audio_buffer), ws') => session_loop audio_buffer rest ws'
      | (inr Break, ws') => finish ws'
      | (inl e, ws') => finish ws'
      end
  end.

Definition websocket_audio (inbox : list (result message)) (ws : WebSocket)
  : outcome :=
  match transmit Accept ws with
  | (inl e, ws') => Failed e ws'
  | (inr _, ws') => session_loop [] inbox ws'
  end.

(** A fresh connection over a transport that never fails. *)
Definition fresh : WebSocket := {| faults := []; wire := [] |}.

(** The connection once further frames went out over a transport that does
    not fail. *)
Definition after (ws : WebSocket) (out : list frame) : WebSocket :=
  {| faults := []; wire := wire ws ++ out |}.

(** A frame that may or may not have gone out. *)
Definition optional (present : bool) (f : frame) : list frame :=
  if present then [f] else [].

Definition outcome_ws (o : outcome) : WebSocket :=
  match o with
  | Awaiting _ ws | Closed ws | Failed _ ws => ws
  end.

(** The payloads sent, in order. *)
Fixpoint sent (w : list frame) : list json :=
  match w with
  | [] => []
  | SendJson j :: w' => j :: sent w'
  | _ :: w' => sent w'
  end.

(** Feeding the accumulator a sequence of chunks: the windows handed out, in
    order, and the buffer left. *)
Fixpoint feed (audio_buffer : list byte) (chunks : list (list byte))
  : list (list byte) * list byte :=
  match chunks with
  | [] => ([], audio_buffer)
  | chunk :: rest =>
      match ingest audio_buffer chunk with
      | (Some window, cleared) =>
          let '(ws, b) := feed cleared rest in (window :: ws, b)
      | (None, audio_buffer) => feed audio_buffer rest
      end
  end.

End Session.

End Stream.

(** ** Test doubles for the libraries

    Floats are rationals, formatted in fixed point (rounding half up); the
    estimators return canned values, as a unit test of the service would
    patch them in. *)

Module Double.

Definition decimal (z : Z) : string := NilZero.string_of_uint (N.to_uint (Z.to_N z)).

Fixpoint zeros (n : nat) (s : string) : string :=
  match n with
  | O => s
  | S n' => zeros n' (String "0" s)
  end.

Definition zero_pad (width : nat) (s : string) : string :=
  zeros (width - String.length s) s.

Definition fixed (prec : nat) (x : Q) : string :=
  let scale := 10 ^ Z.of_nat prec in
  let n := Qfloor (x * inject_Z scale + (1 # 2)) in
  let a := Z.abs n in
  let sign : string := if n <? 0 then "-" else "" in
  let fraction : string :=
    match prec with
    | O => ""
    | _ => String "." (zero_pad prec (decimal (a mod scale)))
    end in
  String.append sign (String.append (decimal (a / scale)) fraction).

(** Estimators that succeed: 120 BPM, C major with confidence 0.825. *)
Definition working : Libraries := {|
  Float := Q;
  times100 := fun x => (x * 100)%Q;
  format_fixed := fixed;
  beat_track := fun _ _ => ret (TempoArray [120%Q], []);
  KeyExtractor := fun _ => ret ("C", "major", (825 # 1000)%Q);
  sf_read := fun b => ret (Arr1 (map (fun s => Qmake s 32768) (int16_seq b)), 48000)
|}.

(** The same, with a beat tracker that raises on every input. *)
Definition failing_tempo : Libraries := {|
  Float := Q;
  times100 := fun x => (x * 100)%Q;
  format_fixed := fixed;
  beat_track := fun _ _ => raise (ExternalError "beat tracking failed");
  KeyExtractor := fun _ => ret ("C", "major", (825 # 1000)%Q);
  sf_read := fun b => ret (Arr1 (map (fun s => Qmake s 32768) (int16_seq b)), 48000)
|}.

(** The same, with the beat tracker as it answers a signal without onsets:
    tempo zero as a plain float, no beats. *)
Definition silent_tempo : Libraries := {|
  Float := Q;
  times100 := fun x => (x * 100)%Q;
  format_fixed := fixed;
  beat_track := fun _ _ => ret (TempoFloat 0%Q, []);
  KeyExtractor := fun _ => ret ("C", "major", (825 # 1000)%Q);
  sf_read := fun b => ret (Arr1 (map (fun s => Qmake s 32768) (int16_seq b)), 48000)
|}.

(** A block of silence of [n] bytes. *)
Definition silence (n : Z) : list byte := repeat x00 (Z.to_nat n).

(** A one-shot request with the given headers and a four-byte upload. *)
Definition request (headers : list (string * string)) : OneShot.Request :=
  {| OneShot.headers := headers;
     OneShot.file := {| OneShot.read := inr [x00; x40; x00; xc0] |} |}.

(** The same request, posted to the path [/analyze]. *)
Definition post (headers : list (string * string)) : OneShot.HttpRequest :=
  {| OneShot.method := "POST";
     OneShot.path := "/analyze";
     OneShot.request := request headers |}.

End Double.

(** ** key_detection.py: [detect_key]

    The chromagram and its sum over time come from librosa and numpy; the
    per-pitch-class totals are finite floats, compared here as rationals. *)

Class ChromaLibrary : Type := {
  (** [np.sum(librosa.feature.chroma_cqt(y=audio, sr=sample_rate), axis=1)] *)
  chroma_sums : ndarray Q -> Z -> result (list Q)
}.

Module KeyDetection.

Definition keys : list string :=
  ["C"; "C#"; "D"; "D#"; "E"; "F"; "F#"; "G"; "G#"; "A"; "A#"; "B"].

(** The scan of [np.argmax]: the running best is replaced only by a strictly
    larger value, so the first maximum wins. *)
Fixpoint argmax_from (best_index : nat) (best : Q) (index : nat) (l : list Q)
  : nat :=
  match l with
  | [] => best_index
  | x :: rest =>
      if Qle_bool x best
      then argmax_from best_index best (S index) rest
      else argmax_from index x (S index) rest
  end.

(** [np.argmax(a)] on a one-dimensional array *)
Definition argmax (a : list Q) : result nat :=
  match a with
  | [] => raise (ValueError "attempt to get argmax of an empty sequence")
  | x :: rest => ret (argmax_from 0 x 1 rest)
  end.

(** [i] is the position of the first maximum of [a]. *)
Definition first_maximum (a : list Q) (i : nat) : Prop :=
  (i < List.length a)%nat
  /\ (forall j, (j < List.length a)%nat -> (nth j a 0 <= nth i a 0)%Q)
  /\ (forall j, (j < i)%nat -> (nth j a 0 < nth i a 0)%Q).

(** [l[i]] on a Python list, for a non-negative index *)
Definition list_index {A} (l : list A) (i : nat) : result A :=
  match nth_error l i with
  | Some x => ret x
  | None => raise (IndexError "list index out of range")
  end.

Definition detect_key `{ChromaLibrary} (audio : ndarray Q) (sample_rate : Z)
  : result string :=
  chroma_sums <- chroma_sums audio sample_rate ;;
  key_index <- argmax chroma_sums ;;
  detected_key <- list_index keys key_index ;;
  ret detected_key.

End KeyDetection.

(** ** Piano_sound.py: [PianoSound]

    The file system and the pygame mixer are an interface; a dict is an
    association list in insertion order, an assignment to an existing key
    replacing its value in place. *)

Class SoundBackend : Type := {
  Sound : Type;
  (** [os.path.exists(path)] *)
  path_exists : string -> bool;
  (** [pygame.mixer.Sound(path)] *)
  mixer_Sound : string -> result Sound;
  (** [sound.set_volume(v)], giving the sound at its new volume *)
  set_volume : Sound -> Q -> result Sound
}.

Module PianoSound.

(** [self.notes] as [__init__] sets it. *)
Definition notes : list string :=
  ["C4"; "C#4"; "D4"; "D#4"; "E4"; "F4"; "F#4"; "G4"; "G#4"; "A4"; "A#4"; "B4"].

(** ["#" in n] *)
Fixpoint has_sharp (n : string) : bool :=
  match n with
  | EmptyString => false
  | String c rest => Ascii.eqb c "#" || has_sharp rest
  end.

Definition piano_keys (notes : list string) : list string * list string :=
  let white_keys := filter (fun n => negb (has_sharp n)) notes in
  let black_keys := filter has_sharp notes in
  (white_keys, black_keys).

(** [d[k] = v] *)
Fixpoint dict_set {V} (d : list (string * V)) (k : string) (v : V)
  : list (string * V) :=
  match d with
  | [] => [(k, v)]
  | (k', v') :: rest =>
      if String.eqb k' k then (k', v) :: rest
      else (k', v') :: dict_set rest k v
  end.

(** [d.get(k)] *)
Fixpoint dict_get {V} (d : list (string * V)) (k : string) : option V :=
  match d with
  | [] => None
  | (k', v') :: rest => if String.eqb k' k then Some v' else dict_get rest k
  end.

(** [os.path.join("sounds", f"{note}.wav")], with the POSIX separator *)
Definition sound_file (note : string) : string :=
  String.append "sounds/" (String.append note ".wav").

Section Sounds.
Context `{SoundBackend}.

(** The value the loop body leaves in [sounds[note]]: the loaded sound at
    full volume, or [None] when the file is missing or loading raised. *)
Definition load_note (note : string) : option Sound :=
  if path_exists (sound_file note)
  then match (sound <- mixer_Sound (sound_file note) ;; set_volume sound 1) with
       | inr sound => Some sound
       | inl e => None
       end
  else None.

Fixpoint load_all (sounds : list (string * option Sound)) (notes : list string)
  : list (string * option Sound) :=
  match notes with
  | [] => sounds
  | note :: rest => load_all (dict_set sounds note (load_note note)) rest
  end.

Definition piano_sounds (notes : list string) : list (string * option Sound) :=
  load_all [] notes.

End Sounds.

End PianoSound.

(** ** Test doubles for the chroma and sound back ends *)

Module Stub.

(** A chromagram whose energy is largest, twice, at D and at A. *)
Definition chroma : ChromaLibrary := {|
  chroma_sums := fun _ _ =>
    ret [1; 0; 5; 2; 0; 3; 0; 4; 0; 5; 1; 0]%Q
|}.

(** Sounds are named by their path; only C4 and D4 exist on disk, and D4 is
    not a readable sound file. *)
Definition sounds : SoundBackend := {|
  Sound := string;
  path_exists := fun path =>
    String.eqb path "sounds/C4.wav" || String.eqb path "sounds/D4.wav";
  mixer_Sound := fun path =>
    if String.eqb path "sounds/D4.wav"
    then raise (ExternalError "Unable to open file")
    else ret path;
  set_volume := fun sound _ => ret sound
|}.

End Stub.

(** * Properties *)

(** ** The definitions on small inputs *)

Example int16_le_extremes :
  (int16_le x00 x80, int16_le xff x7f, int16_le xff xff, int16_le x00 x01)
  = (-32768, 32767, -1, 256).
Proof. reflexivity. Qed.

Example decode_pcm_two_samples :
  decode_pcm [x00; x80; xff; x7f] 44100 1
  = inr (Arr1 [Qmake (-32768) 32768; Qmake 32767 32768], 44100).
Proof. reflexivity. Qed.

Example decode_pcm_stereo_frames :
  decode_pcm [x00; x01; xff; xff; x00; x80; xff; x7f] 44100 2
  = inr (Arr2 2 [[Qmake 256 32768; Qmake (-1) 32768];
                 [Qmake (-32768) 32768; Qmake 32767 32768]], 44100).
Proof. reflexivity. Qed.

Example decode_pcm_odd_length :
  decode_pcm [x00; x01; xff] 44100 1
  = inl (ValueError
           "Failed to convert buffer: buffer size must be a multiple of element size").
Proof. reflexivity. Qed.

Example stop_in_any_case :
  map (fun t => Str.lower (Str.strip t)) ["stop"; "STOP"; "  StOp "; "Stop now"]
  = ["stop"; "stop"; "stop"; "stop now"].
Proof. reflexivity. Qed.

Example find_keysig_formats_strength :
  @find_keysig Double.working (Arr1 []) = inr ("C", "major", PyStr "82.50%").
Proof. reflexivity. Qed.

Example find_bpm_three_decimals :
  @find_bpm Double.working (Arr1 []) = inr "120.000".
Proof. reflexivity. Qed.

Example analyze_window_small :
  @Stream.analyze_window Double.working [x00; x40; x00; xc0]
  = inl (ValueError "Unknown format code 'f' for object of type 'str'").
Proof. reflexivity. Qed.

Example session_text_then_stop :
  @Stream.websocket_audio Double.working
    [inr (Stream.binary [x00]); inr (Stream.text "hello");
     inr (Stream.text "STOP"); inr (Stream.binary [x01])]
    Stream.fresh
  = Stream.Closed
      {| Stream.faults := [];
         Stream.wire := [Stream.Accept;
                         Stream.SendJson Stream.stopped_result;
                         Stream.Close 1000] |}.
Proof. reflexivity. Qed.

Example post_with_the_right_key_is_not_routed :
  @OneShot.app Double.working (Double.post [("x-api-key", "your-secret-key")])
  = OneShot.ErrorResponse 404 "Not Found".
Proof. reflexivity. Qed.

Example session_receive_fails :
  @Stream.websocket_audio Double.working
    [inr (Stream.binary [x00]); inl (ExternalError "disconnected")]
    Stream.fresh
  = Stream.Closed
      {| Stream.faults := [];
         Stream.wire := [Stream.Accept; Stream.Close 1000] |}.
Proof. reflexivity. Qed.

(** ** The PCM decoder *)

Section DecoderFacts.

Lemma len_nonneg {A} (l : list A) : 0 <= len l.
Proof. unfold len. lia. Qed.

Lemma len_app {A} (l l' : list A) : len (l ++ l') = len l + len l'.
Proof. unfold len. rewrite length_app. lia. Qed.

Lemma len_cons {A} (x : A) (l : list A) : len (x :: l) = 1 + len l.
Proof. unfold len. cbn [List.length]. lia. Qed.

Lemma len_nil_iff {A} (l : list A) : len l = 0 <-> l = [].
Proof.
  split; intro E; [|subst l; reflexivity].
  destruct l as [|x l]; [reflexivity|].
  rewrite len_cons in E. pose proof (len_nonneg l). lia.
Qed.

(** Induction two bytes at a time. *)
Lemma pairs_ind {A} (P : list A -> Prop) :
  P [] -> (forall x, P [x]) ->
  (forall x y l, P l -> P (x :: y :: l)) ->
  forall l, P l.
Proof.
  intros H0 H1 H2 l.
  enough (P l /\ forall x, P (x :: l)) as [goal _] by exact goal.
  induction l as [|y l [IHl IHyl]]; split; auto.
Qed.

Lemma len_int16_seq (b : list byte) : len (int16_seq b) = len b / 2.
Proof.
  induction b as [|x|x y b IH] using pairs_ind.
  - reflexivity.
  - reflexivity.
  - cbn [int16_seq]. rewrite !len_cons, IH.
    replace (1 + (1 + len b)) with (len b + 1 * 2) by lia.
    rewrite Z.div_add by lia. lia.
Qed.

Lemma int16_le_range (lo hi : byte) : -32768 <= int16_le lo hi < 32768.
Proof.
  unfold int16_le.
  pose proof (Byte.to_N_bounded lo). pose proof (Byte.to_N_bounded hi).
  cbv zeta. destruct (Z.ltb_spec (Z.of_N (to_N lo) + 256 * Z.of_N (to_N hi)) 32768); lia.
Qed.

Lemma int16_seq_range (b : list byte) :
  Forall (fun s => -32768 <= s < 32768) (int16_seq b).
Proof.
  induction b as [|x|x y b IH] using pairs_ind; cbn [int16_seq]; auto.
  constructor; [apply int16_le_range | exact IH].
Qed.

Lemma unit_range (s : Z) :
  -32768 <= s < 32768 -> (-1 <= Qmake s 32768 /\ Qmake s 32768 < 1)%Q.
Proof.
  intros Hs. unfold Qle, Qlt. cbn [Qnum Qden]. lia.
Qed.

(** What the mono path of the decoder computes on a well-formed buffer. *)
Lemma decode_pcm_mono (pcm_bytes : list byte) (sample_rate : Z) :
  pcm_bytes <> [] -> len pcm_bytes mod 2 = 0 ->
  decode_pcm pcm_bytes sample_rate 1
  = inr (Arr1 (map (fun s => Qmake s 32768) (int16_seq pcm_bytes)), sample_rate).
Proof.
  intros Hne Heven.
  assert (Hlen : 2 <= len pcm_bytes).
  { pose proof (len_nonneg pcm_bytes).
    assert (len pcm_bytes <> 0) by (rewrite len_nil_iff; exact Hne).
    destruct (Z.eq_dec (len pcm_bytes) 1) as [E|E]; [rewrite E in Heven; discriminate | lia]. }
  unfold decode_pcm. destruct pcm_bytes as [|b0 rest]; [contradiction|].
  unfold frombuffer_int16. rewrite Heven. cbn [Z.eqb bind ret try_except size].
  rewrite len_int16_seq.
  assert (Hq : 1 <= len (b0 :: rest) / 2) by (apply Z.div_le_lower_bound; lia).
  destruct (Z.eqb_spec (len (b0 :: rest) / 2) 0) as [E|_]; [lia|].
  reflexivity.
Qed.

End DecoderFacts.

(** C4. For every non-empty byte sequence of even length, [decode_pcm] with
    one channel returns a flat sample sequence with half as many samples as
    there are bytes, each the little-endian signed 16-bit value divided by
    32768 and so lying in [-1, 1). *)
Theorem decode_pcm_mono_length_and_range
    (pcm_bytes : list byte) (sample_rate : Z) :
  pcm_bytes <> [] -> len pcm_bytes mod 2 = 0 ->
  exists samples,
    decode_pcm pcm_bytes sample_rate 1 = inr (Arr1 samples, sample_rate)
    /\ samples = map (fun s => Qmake s 32768) (int16_seq pcm_bytes)
    /\ len samples = len pcm_bytes / 2
    /\ Forall (fun q => (-1 <= q)%Q /\ (q < 1)%Q) samples.
Proof.
  intros Hne Heven.
  exists (map (fun s => Qmake s 32768) (int16_seq pcm_bytes)).
  split; [apply decode_pcm_mono; assumption|].
  split; [reflexivity|].
  split.
  - unfold len. rewrite length_map. apply len_int16_seq.
  - apply Forall_map. eapply Forall_impl; [|apply int16_seq_range].
    intros s Hs. apply unit_range. exact Hs.
Qed.

Lemma decode_pcm_mono_length_and_range_witness :
  exists samples,
    decode_pcm [x00; x80; xff; x7f] 44100 1 = inr (Arr1 samples, 44100)
    /\ samples = map (fun s => Qmake s 32768) (int16_seq [x00; x80; xff; x7f])
    /\ len samples = len [x00; x80; xff; x7f] / 2
    /\ Forall (fun q => (-1 <= q)%Q /\ (q < 1)%Q) samples.
Proof.
  apply (decode_pcm_mono_length_and_range [x00; x80; xff; x7f] 44100).
  - discriminate.
  - reflexivity.
Defined.

(** C5. On an empty byte sequence [decode_pcm] raises, whatever the sample
    rate and the channel count. *)
Theorem decode_pcm_empty_raises (sample_rate channels : Z) :
  decode_pcm [] sample_rate channels = inl (ValueError "Empty audio buffer").
Proof. reflexivity. Qed.

(** ** The analyzer helpers *)

Section AnalyzerFacts.
Context `{Libraries}.

(** [find_keysig] hands the strength back already formatted, as a string. *)
Lemma find_keysig_returns_str (audio : ndarray Q) key scale strength :
  find_keysig audio = inr (key, scale, strength) ->
  exists s, strength = PyStr s.
Proof.
  unfold find_keysig, detect_keySignature.
  destruct (KeyExtractor audio) as [e|[[k sc] st]]; cbn; [discriminate|].
  intros E. injection E as _ _ E. eexists. symmetry. exact E.
Qed.

Lemma call_unary_extra {A B} name (f : A -> result B) a x extra :
  exists msg, call_unary name f a (x :: extra) = inl (TypeError msg).
Proof. cbn. eexists. reflexivity. Qed.

End AnalyzerFacts.

(** C10. [find_bpm] takes the audio alone and asks the tempo estimator at the
    fixed rate 44100: its result is a function of [beat_track audio 44100];
    whatever sample rate the material is decoded with, the BPM string is the
    same; and a call with a second positional argument raises [TypeError]. *)
Theorem find_bpm_fixed_sample_rate `{Libraries} :
  (forall audio,
      find_bpm audio
      = match beat_track audio 44100 with
        | inl e => inl e
        | inr (t, _) => x <- index0 t ;; ret (format_fixed 3 x)
        end)
  /\ (forall pcm_bytes channels rate rate',
         ('(y, _) <- decode_pcm pcm_bytes rate channels ;; find_bpm y)
         = ('(y, _) <- decode_pcm pcm_bytes rate' channels ;; find_bpm y))
  /\ (forall audio sample_rate,
         call_unary "find_bpm" find_bpm audio [ArgInt sample_rate]
         = inl (TypeError
                  "find_bpm() takes 1 positional argument but 2 were given")).
Proof.
  split; [|split].
  - intros audio. unfold find_bpm, detect_BPM.
    destruct (beat_track audio 44100) as [e|[t beats]]; cbn; [reflexivity|].
    destruct (index0 t); reflexivity.
  - intros pcm_bytes channels rate rate'. unfold decode_pcm.
    destruct pcm_bytes as [|b0 rest]; [reflexivity|].
    destruct (try_except _ _) as [e|audio]; cbn; [reflexivity|].
    destruct (if 1 <? channels then _ else _) as [e|audio']; reflexivity.
  - reflexivity.
Qed.

(** ** The one-shot endpoint *)

Section OneShotFacts.
Context `{Libraries}.
Import OneShot.

Lemma verify_api_key_accepts (request : Request) :
  headers_get (headers request) "x-api-key" = Some API_KEY ->
  verify_api_key request = inr tt.
Proof. intros E. unfold verify_api_key. rewrite E. reflexivity. Qed.



End OneShotFacts.



(** C2, as the code behaves. An authorized request whose upload is read and
    decoded is not answered with a "Detected" body: [find_bpm] is declared
    with one parameter and called with two, the [TypeError] is caught, and
    the response is a 500 carrying the error text. *)
Theorem one_shot_always_fails_on_arity `{Libraries}
    (request : OneShot.Request) audio_bytes y sr :
  OneShot.headers_get (OneShot.headers request) "x-api-key"
  = Some OneShot.API_KEY ->
  OneShot.read (OneShot.file request) = inr audio_bytes ->
  sf_read audio_bytes = inr (y, sr) ->
  OneShot.post_analyze request
  = (OneShot.JSONResponse 500
       (JObj [("error",
               JStr "find_bpm() takes 1 positional argument but 2 were given")]),
     [OneShot.ReadUpload; OneShot.DecodeUpload]).
Proof.
  intros Hkey Hread Hdecode.
  unfold OneShot.post_analyze.
  rewrite (verify_api_key_accepts request Hkey).
  unfold OneShot.analyze_audio. rewrite Hread, Hdecode. reflexivity.
Qed.

Lemma one_shot_always_fails_on_arity_witness :
  @OneShot.post_analyze Double.working
    (Double.request [("x-api-key", "your-secret-key")])
  = (OneShot.JSONResponse 500
       (JObj [("error",
               JStr "find_bpm() takes 1 positional argument but 2 were given")]),
     [OneShot.ReadUpload; OneShot.DecodeUpload]).
Proof.
  eapply (@one_shot_always_fails_on_arity Double.working).
  - reflexivity.
  - reflexivity.
  - reflexivity.
Defined.

(** ** The window accumulator *)

Section AccumulatorFacts.
Import Stream.

Lemma TARGET_SIZE_eq : TARGET_SIZE = 441000.
Proof. reflexivity. Qed.

Lemma len_slice_to {A} (n : Z) (l : list A) :
  0 <= n -> len (slice_to n l) = Z.min n (len l).
Proof. intros Hn. unfold slice_to, len. rewrite length_firstn. lia. Qed.

Lemma slice_to_all {A} (n : Z) (l : list A) : len l <= n -> slice_to n l = l.
Proof. intros Hn. unfold slice_to. apply firstn_all2. unfold len in Hn. lia. Qed.

Lemma ingest_full (audio_buffer chunk : list byte) :
  TARGET_SIZE <= len (audio_buffer ++ chunk) ->
  ingest audio_buffer chunk
  = (Some (slice_to TARGET_SIZE (audio_buffer ++ chunk)), []).
Proof.
  intros Hfull. unfold ingest.
  destruct (Z.leb_spec TARGET_SIZE (len (audio_buffer ++ chunk))); [reflexivity | lia].
Qed.

Lemma ingest_short (audio_buffer chunk : list byte) :
  len (audio_buffer ++ chunk) < TARGET_SIZE ->
  ingest audio_buffer chunk = (None, audio_buffer ++ chunk).
Proof.
  intros Hshort. unfold ingest.
  destruct (Z.leb_spec TARGET_SIZE (len (audio_buffer ++ chunk))); [lia | reflexivity].
Qed.

Lemma ingest_cases (audio_buffer chunk : list byte) :
  (TARGET_SIZE <= len (audio_buffer ++ chunk)
   /\ ingest audio_buffer chunk
      = (Some (slice_to TARGET_SIZE (audio_buffer ++ chunk)), []))
  \/ (len (audio_buffer ++ chunk) < TARGET_SIZE
      /\ ingest audio_buffer chunk = (None, audio_buffer ++ chunk)).
Proof.
  destruct (Z.le_gt_cases TARGET_SIZE (len (audio_buffer ++ chunk))) as [Hc|Hc].
  - left. split; [exact Hc | apply ingest_full; exact Hc].
  - right. split; [exact Hc | apply ingest_short; exact Hc].
Qed.

Lemma len_window (audio_buffer : list byte) :
  TARGET_SIZE <= len audio_buffer ->
  len (slice_to TARGET_SIZE audio_buffer) = TARGET_SIZE.
Proof.
  intros Hfull. rewrite len_slice_to by (rewrite TARGET_SIZE_eq; lia). lia.
Qed.

(** Every window [feed] hands out has the target length. *)
Lemma feed_windows_sized (chunks : list (list byte)) :
  forall audio_buffer,
    Forall (fun window => len window = TARGET_SIZE)
           (fst (feed audio_buffer chunks)).
Proof.
  induction chunks as [|chunk rest IH]; intros audio_buffer; cbn [feed fst].
  - constructor.
  - destruct (ingest_cases audio_buffer chunk) as [[Hc E]|[Hc E]]; rewrite E.
    + specialize (IH []). destruct (feed [] rest) as [windows left].
      cbn [fst] in *. constructor; [apply len_window; exact Hc | exact IH].
    + apply IH.
Qed.

(** Below the target nothing is handed out and everything is kept. *)
Lemma feed_short (chunks : list (list byte)) :
  forall audio_buffer,
    len (audio_buffer ++ List.concat chunks) < TARGET_SIZE ->
    feed audio_buffer chunks = ([], audio_buffer ++ List.concat chunks).
Proof.
  induction chunks as [|chunk rest IH]; intros audio_buffer Hshort;
    cbn [feed List.concat] in *.
  - rewrite app_nil_r. reflexivity.
  - rewrite app_assoc in Hshort. rewrite ingest_short.
    + rewrite IH by exact Hshort. rewrite app_assoc. reflexivity.
    + rewrite len_app in Hshort. pose proof (len_nonneg (List.concat rest)). lia.
Qed.

(** Chunks that add up to exactly one window give that window, once. *)
Lemma feed_exact (chunks : list (list byte)) :
  forall audio_buffer,
    len audio_buffer < TARGET_SIZE ->
    len (audio_buffer ++ List.concat chunks) = TARGET_SIZE ->
    feed audio_buffer chunks = ([audio_buffer ++ List.concat chunks], []).
Proof.
  induction chunks as [|chunk rest IH]; intros audio_buffer Hbelow Htotal;
    cbn [feed List.concat] in *.
  - rewrite app_nil_r in Htotal. lia.
  - rewrite app_assoc in Htotal. rewrite app_assoc.
    destruct (ingest_cases audio_buffer chunk) as [[Hc E]|[Hc E]]; rewrite E.
    + assert (Hrest : len (List.concat rest) = 0).
      { rewrite len_app in Htotal. pose proof (len_nonneg (List.concat rest)). lia. }
      apply len_nil_iff in Hrest.
      rewrite (feed_short rest []) by (rewrite Hrest; reflexivity).
      rewrite Hrest in Htotal |- *. rewrite app_nil_r in Htotal.
      rewrite !app_nil_r. cbn [app].
      rewrite slice_to_all by lia. reflexivity.
    + apply IH; assumption.
Qed.

End AccumulatorFacts.

(** C3. The accumulator only ever hands out windows of 441000 bytes: once
    the buffer reaches or passes the target it hands out the first 441000
    bytes accumulated and is left empty, the excess being dropped; over any
    sequence of chunks every window handed out has that length; and a byte
    string of target length, cut into chunks in any way, gives exactly one
    window, equal to the string. *)
Theorem accumulator_windows_have_target_size :
  (forall audio_buffer chunk,
      Stream.TARGET_SIZE <= len (audio_buffer ++ chunk) ->
      Stream.ingest audio_buffer chunk
      = (Some (slice_to 441000 (audio_buffer ++ chunk)), [])
      /\ len (slice_to 441000 (audio_buffer ++ chunk)) = 441000)
  /\ (forall audio_buffer chunk,
         len (audio_buffer ++ chunk) < Stream.TARGET_SIZE ->
         Stream.ingest audio_buffer chunk = (None, audio_buffer ++ chunk))
  /\ (forall audio_buffer chunks,
         Forall (fun window => len window = 441000)
                (fst (Stream.feed audio_buffer chunks)))
  /\ (forall data chunks,
         len data = 441000 -> List.concat chunks = data ->
         Stream.feed [] chunks = ([data], [])).
Proof.
  rewrite <- TARGET_SIZE_eq.
  split; [|split; [|split]].
  - intros audio_buffer chunk Hfull. split.
    + apply ingest_full. exact Hfull.
    + apply (len_window _ Hfull).
  - apply ingest_short.
  - intros audio_buffer chunks. apply feed_windows_sized.
  - intros data chunks Hlen Hcat. subst data.
    apply (feed_exact chunks []); [reflexivity | exact Hlen].
Qed.

Section SilenceFacts.
Import Double.

Lemma len_silence (n : Z) : 0 <= n -> len (silence n) = n.
Proof. intros Hn. unfold len, silence. rewrite repeat_length. lia. Qed.

Lemma silence_app (n m : Z) :
  0 <= n -> 0 <= m -> silence n ++ silence m = silence (n + m).
Proof.
  intros Hn Hm. unfold silence. rewrite <- repeat_app. f_equal. lia.
Qed.

End SilenceFacts.

Lemma accumulator_windows_have_target_size_witness :
  Stream.feed [] [Double.silence 220500; Double.silence 220500]
  = ([Double.silence 441000], [])
  /\ Stream.ingest (Double.silence 440000) (Double.silence 2000)
     = (Some (slice_to 441000 (Double.silence 440000 ++ Double.silence 2000)), []).
Proof.
  destruct accumulator_windows_have_target_size as [Hfull [_ [_ Hsplit]]].
  split.
  - apply Hsplit.
    + apply len_silence. lia.
    + cbn [List.concat]. rewrite app_nil_r. apply silence_app; lia.
  - apply Hfull.
    rewrite len_app, !len_silence, TARGET_SIZE_eq by lia. lia.
Defined.

(** ** The streaming session *)

Section SessionFacts.
Context `{Libraries}.
Import Stream.

Lemma transmit_reliable (f : frame) (ws : WebSocket) :
  faults ws = [] -> transmit f ws = (inr tt, after ws [f]).
Proof. intros Hok. unfold transmit, after. rewrite Hok. reflexivity. Qed.

Lemma after_reliable (ws : WebSocket) out : faults (after ws out) = [].
Proof. reflexivity. Qed.

Lemma after_after (ws : WebSocket) out out' :
  after (after ws out) out' = after ws (out ++ out').
Proof. unfold after. cbn [wire]. rewrite app_assoc. reflexivity. Qed.

Lemma after_nil (ws : WebSocket) : faults ws = [] -> after ws [] = ws.
Proof.
  intros Hok. destruct ws as [f w]. cbn in Hok. subst f.
  unfold after. cbn [wire]. rewrite app_nil_r. reflexivity.
Qed.

(** The payload of a "Detected" result is never built: the strength that
    [find_keysig] returns is a string, and the format specification [.1f]
    rejects strings. *)
Lemma analyze_window_raises (window : list byte) :
  raised (analyze_window window).
Proof.
  unfold analyze_window, raised.
  destruct (decode_pcm window SAMPLE_RATE CHANNELS) as [e|[y sr]];
    cbn [bind]; [eexists; reflexivity|].
  destruct (size y =? 0); cbn [bind raise ret]; [eexists; reflexivity|].
  destruct (find_bpm y) as [e|bpm]; cbn [bind]; [eexists; reflexivity|].
  destruct (find_keysig y) as [e|[[key scale] strength]] eqn:Ekey;
    cbn [bind]; [eexists; reflexivity|].
  destruct (find_keysig_returns_str _ _ _ _ Ekey) as [s ->].
  cbn. eexists. reflexivity.
Qed.

(** When both estimators return, the exception is the formatting one. *)
Lemma analyze_window_format_error (window : list byte) y sr bpm key scale strength :
  decode_pcm window SAMPLE_RATE CHANNELS = inr (y, sr) ->
  size y <> 0 ->
  find_bpm y = inr bpm ->
  find_keysig y = inr (key, scale, strength) ->
  analyze_window window
  = inl (ValueError "Unknown format code 'f' for object of type 'str'").
Proof.
  intros Hdec Hsize Hbpm Hkey. unfold analyze_window.
  rewrite Hdec. cbn [bind].
  destruct (Z.eqb_spec (size y) 0) as [E|_]; [contradiction|].
  cbn [bind ret]. rewrite Hbpm. cbn [bind]. rewrite Hkey. cbn [bind].
  destruct (find_keysig_returns_str _ _ _ _ Hkey) as [s ->]. reflexivity.
Qed.

Lemma process_window_reliable (window : list byte) (ws : WebSocket) :
  faults ws = [] ->
  process_window window ws = (inr tt, after ws [SendJson error_result]).
Proof.
  intros Hok. unfold process_window, io_try, io_bind, lift.
  destruct (analyze_window_raises window) as [e ->].
  unfold send_json. apply transmit_reliable. exact Hok.
Qed.

Lemma session_body_window (audio_buffer chunk : list byte) (ws : WebSocket) :
  faults ws = [] ->
  TARGET_SIZE <= len (audio_buffer ++ chunk) ->
  session_body audio_buffer (binary chunk) ws
  = (inr (Continue []), after ws [SendJson error_result]).
Proof.
  intros Hok Hfull. unfold session_body. cbn [msg_bytes binary].
  rewrite (ingest_full _ _ Hfull). unfold io_bind.
  rewrite (process_window_reliable _ _ Hok). reflexivity.
Qed.

Lemma session_body_buffering (audio_buffer chunk : list byte) (ws : WebSocket) :
  len (audio_buffer ++ chunk) < TARGET_SIZE ->
  session_body audio_buffer (binary chunk) ws
  = (inr (Continue (audio_buffer ++ chunk)), ws).
Proof.
  intros Hshort. unfold session_body. cbn [msg_bytes binary].
  rewrite (ingest_short _ _ Hshort). reflexivity.
Qed.

(** A run of binary frames over a reliable connection follows [feed]: one
    error result goes out per window handed out. *)
Lemma session_loop_binary (chunks : list (list byte)) :
  forall audio_buffer rest ws,
    faults ws = [] ->
    session_loop audio_buffer
      (map (fun chunk => inr (binary chunk)) chunks ++ rest) ws
    = session_loop (snd (feed audio_buffer chunks)) rest
        (after ws (map (fun _ => SendJson error_result)
                       (fst (feed audio_buffer chunks)))).
Proof.
  induction chunks as [|chunk more IH]; intros audio_buffer rest ws Hok.
  - cbn [map app feed fst snd]. rewrite after_nil by exact Hok. reflexivity.
  - cbn [map app session_loop feed].
    destruct (ingest_cases audio_buffer chunk) as [[Hc E]|[Hc E]]; rewrite E.
    + rewrite (session_body_window _ _ _ Hok Hc).
      rewrite IH by apply after_reliable.
      destruct (feed [] more) as [windows left]. cbn [fst snd map].
      rewrite after_after. reflexivity.
    + rewrite (session_body_buffering _ _ _ Hc).
      apply IH. exact Hok.
Qed.

(** The buffer a suspended session holds is below the target. *)
Lemma session_loop_buffer_bound (inbox : list (result message)) :
  forall audio_buffer ws buffer' ws',
    len audio_buffer < TARGET_SIZE ->
    session_loop audio_buffer inbox ws = Awaiting buffer' ws' ->
    len buffer' < TARGET_SIZE.
Proof.
  induction inbox as [|[e|msg] rest IH]; intros audio_buffer ws buffer' ws' Hinv Hrun;
    cbn [session_loop] in Hrun.
  - injection Hrun as <- _. exact Hinv.
  - discriminate.
  - destruct (session_body audio_buffer msg ws) as [[e|[next|]] ws1] eqn:Ebody;
      try discriminate.
    apply (IH next ws1 buffer' ws'); [|exact Hrun].
    unfold session_body in Ebody.
    destruct (msg_bytes msg) as [[chunk|]|].
    + destruct (ingest_cases audio_buffer chunk) as [[Hc E]|[Hc E]];
        rewrite E in Ebody.
      * unfold io_bind in Ebody.
        destruct (process_window _ ws) as [[e|u] ws2]; [discriminate|].
        injection Ebody as <- _. rewrite TARGET_SIZE_eq. reflexivity.
      * injection Ebody as <- _. exact Hc.
    + discriminate.
    + destruct (msg_text msg) as [[t|]|].
      * destruct (String.eqb _ _).
        -- unfold io_bind in Ebody.
           destruct (send_json stopped_result ws) as [[e|u] ws2]; discriminate.
        -- injection Ebody as <- _. exact Hinv.
      * discriminate.
      * injection Ebody as <- _. exact Hinv.
Qed.

End SessionFacts.

Section ScenarioFacts.
Import Stream.

Lemma len_concat_uniform (n : Z) (chunks : list (list byte)) :
  Forall (fun chunk => len chunk = n) chunks ->
  len (List.concat chunks) = n * Z.of_nat (List.length chunks).
Proof.
  induction 1 as [|chunk rest Hchunk _ IH]; cbn [List.concat List.length].
  - unfold len. cbn. lia.
  - rewrite len_app, Hchunk, IH. lia.
Qed.

Lemma Forall_firstn {A} (P : A -> Prop) (k : nat) (l : list A) :
  Forall P l -> Forall P (firstn k l).
Proof.
  intros Hall. revert k. induction Hall as [|x l Hx _ IH]; intros [|k];
    cbn [firstn]; auto.
Qed.

End ScenarioFacts.

(** C1, as the code behaves. A session that receives 441000 bytes as ten
    binary chunks of 44100 bytes sends nothing during the first nine chunks
    and exactly one result after the tenth; that result is the "Error"
    payload, not a "Detected" one with a strength field, whatever the bytes
    are and whatever the estimators return. *)
Theorem ten_chunks_emit_error_instead_of_detected `{Libraries}
    (chunks : list (list byte)) :
  List.length chunks = 10%nat ->
  Forall (fun chunk => len chunk = 44100) chunks ->
  (forall k, (k < 10)%nat ->
     Stream.websocket_audio
       (map (fun chunk => inr (Stream.binary chunk)) (firstn k chunks))
       Stream.fresh
     = Stream.Awaiting (List.concat (firstn k chunks))
         {| Stream.faults := []; Stream.wire := [Stream.Accept] |})
  /\ Stream.websocket_audio
       (map (fun chunk => inr (Stream.binary chunk)) chunks) Stream.fresh
     = Stream.Awaiting []
         {| Stream.faults := [];
            Stream.wire := [Stream.Accept;
                            Stream.SendJson Stream.error_result] |}.
Proof.
  intros Hten Hsize.
  assert (Hrun : forall sent_chunks,
             Stream.websocket_audio
               (map (fun chunk => inr (Stream.binary chunk)) sent_chunks)
               Stream.fresh
             = Stream.session_loop (snd (Stream.feed [] sent_chunks)) []
                 (Stream.after (Stream.after Stream.fresh [Stream.Accept])
                    (map (fun _ => Stream.SendJson Stream.error_result)
                         (fst (Stream.feed [] sent_chunks))))).
  { intros sent_chunks. unfold Stream.websocket_audio.
    rewrite transmit_reliable by reflexivity.
    rewrite <- (app_nil_r (map _ sent_chunks)).
    apply session_loop_binary. reflexivity. }
  split.
  - intros k Hk. rewrite Hrun.
    rewrite (feed_short (firstn k chunks) []).
    + reflexivity.
    + cbn [app].
      rewrite (len_concat_uniform 44100) by (apply Forall_firstn; exact Hsize).
      rewrite length_firstn, TARGET_SIZE_eq. lia.
  - rewrite Hrun.
    rewrite (feed_exact chunks []).
    + reflexivity.
    + reflexivity.
    + cbn [app]. rewrite (len_concat_uniform 44100) by exact Hsize.
      rewrite Hten. reflexivity.
Qed.

Lemma ten_chunks_emit_error_instead_of_detected_witness :
  @Stream.websocket_audio Double.working
    (map (fun chunk => inr (Stream.binary chunk))
         (repeat (Double.silence 44100) 10))
    Stream.fresh
  = Stream.Awaiting []
      {| Stream.faults := [];
         Stream.wire := [Stream.Accept;
                         Stream.SendJson Stream.error_result] |}.
Proof.
  apply (@ten_chunks_emit_error_instead_of_detected Double.working
           (repeat (Double.silence 44100) 10)).
  - reflexivity.
  - apply Forall_forall. intros chunk Hin.
    apply repeat_spec in Hin. subst chunk. apply len_silence. lia.
Defined.

(** C6. In any session over a working transport, a text frame whose
    stripped, lower-cased content is "stop" makes the handler send exactly
    one [{"status": "Stopped"}], leave the loop without receiving anything
    further, and close the connection with code 1000; nothing else is sent,
    so whatever the buffer holds at that moment is never analyzed. *)
Theorem stop_command_ends_session `{Libraries}
    (audio_buffer : list byte) (t : string)
    (rest : list (result Stream.message)) (ws : Stream.WebSocket) :
  Stream.faults ws = [] ->
  Str.lower (Str.strip t) = "stop" ->
  Stream.session_body audio_buffer (Stream.text t) ws
  = (inr Stream.Break,
     {| Stream.faults := [];
        Stream.wire := Stream.wire ws
                       ++ [Stream.SendJson Stream.stopped_result] |})
  /\ Stream.session_loop audio_buffer (inr (Stream.text t) :: rest) ws
     = Stream.Closed
         {| Stream.faults := [];
            Stream.wire := Stream.wire ws
                           ++ [Stream.SendJson Stream.stopped_result;
                               Stream.Close 1000] |}
  /\ Stream.sent (Stream.wire (Stream.outcome_ws
        (Stream.websocket_audio (inr (Stream.text t) :: rest) Stream.fresh)))
     = [Stream.stopped_result].
Proof.
  intros Hok Hstop.
  assert (Hbody : forall buffer ws0, Stream.faults ws0 = [] ->
            Stream.session_body buffer (Stream.text t) ws0
            = (inr Stream.Break,
               Stream.after ws0 [Stream.SendJson Stream.stopped_result])).
  { intros buffer ws0 Hok0. unfold Stream.session_body.
    cbn [Stream.msg_bytes Stream.msg_text Stream.text].
    rewrite Hstop. cbn [String.eqb Ascii.eqb Bool.eqb].
    unfold Stream.io_bind, Stream.send_json.
    rewrite transmit_reliable by exact Hok0. reflexivity. }
  assert (Hloop : forall buffer ws0, Stream.faults ws0 = [] ->
            Stream.session_loop buffer (inr (Stream.text t) :: rest) ws0
            = Stream.Closed
                (Stream.after ws0 [Stream.SendJson Stream.stopped_result;
                            Stream.Close 1000])).
  { intros buffer ws0 Hok0. cbn [Stream.session_loop].
    rewrite Hbody by exact Hok0. unfold Stream.finish.
    rewrite transmit_reliable by apply after_reliable.
    cbn [snd]. rewrite after_after. reflexivity. }
  split; [apply Hbody; exact Hok|].
  split; [apply Hloop; exact Hok|].
  unfold Stream.websocket_audio.
  rewrite transmit_reliable by reflexivity.
  rewrite Hloop by apply after_reliable. reflexivity.
Qed.

Lemma stop_command_ends_session_witness :
  @Stream.session_loop Double.working [x01; x02]
    [inr (Stream.text "  StOp "); inr (Stream.binary [x03])] Stream.fresh
  = Stream.Closed
      {| Stream.faults := [];
         Stream.wire := [Stream.SendJson Stream.stopped_result;
                         Stream.Close 1000] |}.
Proof.
  apply (@stop_command_ends_session Double.working [x01; x02] "  StOp "
           [inr (Stream.binary [x03])] Stream.fresh).
  - reflexivity.
  - reflexivity.
Defined.

(** C7. When a full window is reached and its decoding or the estimation
    raises, the handler sends exactly one
    [{"bpm": "Unknown", "key": "Unknown", "status": "Error"}] and goes on
    with the next message, the buffer empty. *)
Theorem analysis_error_reported_and_session_continues `{Libraries}
    (audio_buffer chunk : list byte)
    (rest : list (result Stream.message)) (ws : Stream.WebSocket) :
  Stream.faults ws = [] ->
  Stream.TARGET_SIZE <= len (audio_buffer ++ chunk) ->
  (raised (decode_pcm (slice_to Stream.TARGET_SIZE (audio_buffer ++ chunk))
             Stream.SAMPLE_RATE Stream.CHANNELS)
   \/ exists y sr,
        decode_pcm (slice_to Stream.TARGET_SIZE (audio_buffer ++ chunk))
          Stream.SAMPLE_RATE Stream.CHANNELS = inr (y, sr)
        /\ (raised (find_bpm y) \/ raised (find_keysig y))) ->
  Stream.session_body audio_buffer (Stream.binary chunk) ws
  = (inr (Stream.Continue []),
     {| Stream.faults := [];
        Stream.wire := Stream.wire ws
                       ++ [Stream.SendJson Stream.error_result] |})
  /\ Stream.session_loop audio_buffer (inr (Stream.binary chunk) :: rest) ws
     = Stream.session_loop [] rest
         {| Stream.faults := [];
            Stream.wire := Stream.wire ws
                           ++ [Stream.SendJson Stream.error_result] |}.
Proof.
  intros Hok Hfull _.
  pose proof (session_body_window audio_buffer chunk ws Hok Hfull) as Hbody.
  split; [exact Hbody|].
  cbn [Stream.session_loop]. rewrite Hbody. reflexivity.
Qed.

Lemma analysis_error_reported_and_session_continues_witness :
  @Stream.session_loop Double.failing_tempo []
    [inr (Stream.binary (Double.silence 441000)); inr (Stream.text "stop")]
    Stream.fresh
  = @Stream.session_loop Double.failing_tempo [] [inr (Stream.text "stop")]
      {| Stream.faults := [];
         Stream.wire := [Stream.SendJson Stream.error_result] |}.
Proof.
  assert (Hwindow : slice_to Stream.TARGET_SIZE ([] ++ Double.silence 441000)
                    = Double.silence 441000).
  { apply slice_to_all. cbn [app]. rewrite len_silence, TARGET_SIZE_eq; lia. }
  apply (@analysis_error_reported_and_session_continues Double.failing_tempo
           [] (Double.silence 441000) [inr (Stream.text "stop")] Stream.fresh).
  - reflexivity.
  - cbn [app]. rewrite len_silence, TARGET_SIZE_eq; lia.
  - right. rewrite Hwindow.
    eexists. exists Stream.SAMPLE_RATE. split.
    + apply decode_pcm_mono.
      * intros Hnil. apply len_nil_iff in Hnil.
        rewrite len_silence in Hnil; lia.
      * rewrite len_silence by lia. reflexivity.
    + left. exists (ExternalError "beat tracking failed"). reflexivity.
Defined.

(** C9. Whenever the handler has finished processing a binary message, the
    buffer it keeps is shorter than the 441000-byte target: it is empty if
    the message completed a window, whether the analysis of that window
    returned or raised, and the old buffer plus the chunk otherwise.  The
    bound then holds at every later point at which the session waits for a
    message. *)
Theorem buffer_below_target_after_binary_message `{Libraries}
    (audio_buffer chunk : list byte) (ws ws' : Stream.WebSocket)
    (next : Stream.control) (inbox : list (result Stream.message)) :
  Stream.session_body audio_buffer (Stream.binary chunk) ws = (inr next, ws') ->
  exists buffer',
    next = Stream.Continue buffer'
    /\ buffer' = (if Stream.TARGET_SIZE <=? len (audio_buffer ++ chunk)
                  then [] else audio_buffer ++ chunk)
    /\ len buffer' < 441000
    /\ match Stream.session_loop buffer' inbox ws' with
       | Stream.Awaiting held _ => len held < 441000
       | _ => True
       end.
Proof.
  intros Ebody. rewrite <- TARGET_SIZE_eq.
  assert (Hnext : exists buffer',
             next = Stream.Continue buffer'
             /\ buffer' = (if Stream.TARGET_SIZE <=? len (audio_buffer ++ chunk)
                           then [] else audio_buffer ++ chunk)
             /\ len buffer' < Stream.TARGET_SIZE).
  { unfold Stream.session_body in Ebody.
    cbn [Stream.msg_bytes Stream.binary] in Ebody.
    destruct (ingest_cases audio_buffer chunk) as [[Hc E]|[Hc E]];
      rewrite E in Ebody.
    - unfold Stream.io_bind in Ebody.
      destruct (Stream.process_window _ ws) as [[e|u] ws2]; [discriminate|].
      injection Ebody as <- _. exists [].
      destruct (Z.leb_spec Stream.TARGET_SIZE (len (audio_buffer ++ chunk)));
        [|lia].
      repeat split.
    - injection Ebody as <- _. exists (audio_buffer ++ chunk).
      destruct (Z.leb_spec Stream.TARGET_SIZE (len (audio_buffer ++ chunk)));
        [lia|].
      repeat split. exact Hc. }
  destruct Hnext as [buffer' [Enext [Ebuf Hbound]]].
  exists buffer'. repeat split; try assumption.
  destruct (Stream.session_loop buffer' inbox ws') as [held ws1| |] eqn:Hrun;
    [|exact I|exact I].
  apply (session_loop_buffer_bound inbox buffer' ws' held ws1 Hbound Hrun).
Qed.

Lemma buffer_below_target_after_binary_message_witness :
  exists buffer',
    Stream.Continue [x01; x02; x03] = Stream.Continue buffer'
    /\ buffer' = (if Stream.TARGET_SIZE <=? len ([x01] ++ [x02; x03])
                  then [] else [x01] ++ [x02; x03])
    /\ len buffer' < 441000
    /\ match @Stream.session_loop Double.working buffer'
               [inr (Stream.binary [x04])] Stream.fresh with
       | Stream.Awaiting held _ => len held < 441000
       | _ => True
       end.
Proof.
  apply (@buffer_below_target_after_binary_message Double.working
           [x01] [x02; x03] Stream.fresh Stream.fresh
           (Stream.Continue [x01; x02; x03]) [inr (Stream.binary [x04])]).
  reflexivity.
Defined.

(** * Further properties of the code *)

(** ** The decoder beyond the mono path *)

Section DecoderShapes.

Lemma rows_of_shape {A} (c : nat) (l : list A) :
  forall (j : nat) (cur : list A) (m : nat),
    (1 <= j)%nat -> (List.length cur + j = c)%nat ->
    (List.length cur + List.length l = m * c)%nat ->
    List.concat (rows_of c l j cur) = rev cur ++ l
    /\ List.length (rows_of c l j cur) = m
    /\ Forall (fun row => List.length row = c) (rows_of c l j cur).
Proof.
  induction l as [|x t IH]; intros j cur m Hj Hcur Htotal.
  - cbn [List.length] in Htotal.
    assert (m = 0%nat) by nia. subst m.
    assert (cur = []) by (destruct cur; [reflexivity | cbn in Htotal; lia]).
    subst cur. cbn. auto.
  - cbn [rows_of]. destruct j as [|[|j']]; [lia| |].
    + cbn [List.length] in Htotal.
      destruct m as [|m']; [lia|].
      destruct (IH c [] m') as [Hcat [Hlen Hall]]; [lia | cbn; lia | cbn; nia |].
      cbn [List.concat List.length]. rewrite Hcat.
      split; [cbn [rev app]; rewrite <- app_assoc; reflexivity|].
      split; [lia|].
      constructor; [|exact Hall].
      rewrite length_rev. cbn [List.length]. lia.
    + cbn [List.length] in Htotal.
      destruct (IH (S j') (x :: cur) m) as [Hcat [Hlen Hall]];
        [lia | cbn [List.length]; lia | cbn [List.length]; lia |].
      rewrite Hcat. cbn [rev]. rewrite <- app_assoc.
      split; [reflexivity|]. split; assumption.
Qed.

Lemma concat_map_map {A B} (f : A -> B) (rows : list (list A)) :
  List.concat (map (map f) rows) = map f (List.concat rows).
Proof.
  induction rows as [|row rest IH]; cbn [map List.concat]; [reflexivity|].
  rewrite map_app, IH. reflexivity.
Qed.

(** The first two steps of [decode_pcm] on a well-formed buffer. *)
Lemma decode_pcm_frombuffer (pcm_bytes : list byte) :
  pcm_bytes <> [] -> len pcm_bytes mod 2 = 0 ->
  try_except
    (audio <- frombuffer_int16 pcm_bytes ;;
     if size audio =? 0
     then raise (ValueError "Decoded audio buffer is empty")
     else ret audio)
    (fun e => raise (ValueError ("Failed to convert buffer: " ++ exn_str e)))
  = inr (Arr1 (int16_seq pcm_bytes)).
Proof.
  intros Hne Heven.
  assert (Hlen : 2 <= len pcm_bytes).
  { pose proof (len_nonneg pcm_bytes).
    assert (len pcm_bytes <> 0) by (rewrite len_nil_iff; exact Hne).
    destruct (Z.eq_dec (len pcm_bytes) 1) as [E|E];
      [rewrite E in Heven; discriminate | lia]. }
  unfold frombuffer_int16. rewrite Heven. cbn [Z.eqb bind ret try_except size].
  rewrite len_int16_seq.
  assert (Hq : 1 <= len pcm_bytes / 2) by (apply Z.div_le_lower_bound; lia).
  destruct (Z.eqb_spec (len pcm_bytes / 2) 0) as [E|_]; [lia|].
  reflexivity.
Qed.

Lemma decode_pcm_unfold (pcm_bytes : list byte) (sample_rate channels : Z) :
  pcm_bytes <> [] -> len pcm_bytes mod 2 = 0 ->
  decode_pcm pcm_bytes sample_rate channels
  = (audio <- (if 1 <? channels
               then reshape_rows channels (int16_seq pcm_bytes)
               else ret (Arr1 (int16_seq pcm_bytes))) ;;
     ret (to_unit_range audio, sample_rate)).
Proof.
  intros Hne Heven. unfold decode_pcm.
  destruct pcm_bytes as [|b0 rest]; [contradiction|].
  rewrite (decode_pcm_frombuffer (b0 :: rest) Hne Heven).
  cbn [bind]. destruct (1 <? channels); reflexivity.
Qed.

Lemma decode_pcm_low_channel_mono
    (pcm_bytes : list byte) (sample_rate channels : Z) :
  channels <= 1 ->
  decode_pcm pcm_bytes sample_rate channels
  = decode_pcm pcm_bytes sample_rate 1.
Proof.
  intros Hch. unfold decode_pcm.
  destruct pcm_bytes as [|b0 rest]; [reflexivity|].
  destruct (Z.ltb_spec 1 channels) as [Hgt|_]; [lia|]. reflexivity.
Qed.

Lemma decode_pcm_odd (pcm_bytes : list byte) (sample_rate channels : Z) :
  len pcm_bytes mod 2 = 1 ->
  decode_pcm pcm_bytes sample_rate channels
  = inl (ValueError
           "Failed to convert buffer: buffer size must be a multiple of element size").
Proof.
  intros Hodd. unfold decode_pcm.
  destruct pcm_bytes as [|b0 rest]; [discriminate|].
  unfold frombuffer_int16. rewrite Hodd. reflexivity.
Qed.

Lemma decode_pcm_multi
    (pcm_bytes : list byte) (sample_rate channels : Z) :
  pcm_bytes <> [] -> len pcm_bytes mod 2 = 0 ->
  1 < channels -> (len pcm_bytes / 2) mod channels = 0 ->
  exists rows,
    decode_pcm pcm_bytes sample_rate channels
    = inr (Arr2 channels rows, sample_rate)
    /\ len rows = len pcm_bytes / 2 / channels
    /\ Forall (fun row => len row = channels) rows
    /\ List.concat rows = map (fun s => Qmake s 32768) (int16_seq pcm_bytes)
    /\ Forall (Forall (fun q => (-1 <= q)%Q /\ (q < 1)%Q)) rows.
Proof.
  intros Hne Heven Hch Hframes.
  rewrite (decode_pcm_unfold _ _ _ Hne Heven).
  destruct (Z.ltb_spec 1 channels) as [_|Hle]; [|lia].
  unfold reshape_rows. rewrite len_int16_seq, Hframes. cbn [Z.eqb bind ret].
  set (samples := int16_seq pcm_bytes).
  set (c := Z.to_nat channels).
  set (m := Z.to_nat (len pcm_bytes / 2 / channels)).
  assert (Hm : (List.length (@nil Z) + List.length samples = m * c)%nat).
  { cbn [List.length]. subst m c samples.
    pose proof (len_int16_seq pcm_bytes) as Hs. unfold len in Hs at 1.
    pose proof (Z.div_exact (len pcm_bytes / 2) channels ltac:(lia)) as Hex.
    apply Hex in Hframes.
    assert (0 <= len pcm_bytes / 2 / channels).
    { apply Z.div_pos; [|lia]. apply Z.div_pos; [apply len_nonneg | lia]. }
    nia. }
  destruct (rows_of_shape c samples c [] m ltac:(subst c; lia) ltac:(cbn; lia) Hm)
    as [Hcat [Hlen Hall]].
  exists (map (map (fun s => Qmake s 32768)) (rows_of c samples c [])).
  split; [reflexivity|].
  split.
  { unfold len. rewrite length_map, Hlen. subst m.
    apply Z2Nat.id. apply Z.div_pos; [|lia].
    apply Z.div_pos; [apply len_nonneg | lia]. }
  split.
  { apply Forall_map. eapply Forall_impl; [|exact Hall].
    intros row Hrow. unfold len. rewrite length_map, Hrow. subst c. lia. }
  split.
  { rewrite concat_map_map, Hcat. reflexivity. }
  assert (Hrange : Forall (fun s => -32768 <= s < 32768) (List.concat (rows_of c samples c [])))
    by (rewrite Hcat; apply int16_seq_range).
  apply Forall_map. apply Forall_forall. intros row Hin.
  apply Forall_map. apply Forall_forall. intros s Hs.
  apply unit_range.
  rewrite Forall_forall in Hrange. apply Hrange.
  apply in_concat. exists row. split; assumption.
Qed.

End DecoderShapes.

(** X1. With more than one channel and a whole number of frames, the decoder
    returns a two-dimensional array with one row per frame: every row holds
    [channels] samples, and the rows read in order are exactly the samples
    of the mono decode, so interleaving is preserved and every value stays
    in [-1, 1). *)
Theorem decode_pcm_frames
    (pcm_bytes : list byte) (sample_rate channels : Z) :
  pcm_bytes <> [] -> len pcm_bytes mod 2 = 0 ->
  1 < channels -> (len pcm_bytes / 2) mod channels = 0 ->
  exists rows,
    decode_pcm pcm_bytes sample_rate channels
    = inr (Arr2 channels rows, sample_rate)
    /\ len rows = len pcm_bytes / 2 / channels
    /\ Forall (fun row => len row = channels) rows
    /\ List.concat rows = map (fun s => Qmake s 32768) (int16_seq pcm_bytes)
    /\ Forall (Forall (fun q => (-1 <= q)%Q /\ (q < 1)%Q)) rows.
Proof. apply decode_pcm_multi. Qed.

Lemma decode_pcm_frames_witness :
  exists rows,
    decode_pcm [x00; x01; xff; xff; x00; x80; xff; x7f] 44100 2
    = inr (Arr2 2 rows, 44100)
    /\ len rows = len [x00; x01; xff; xff; x00; x80; xff; x7f] / 2 / 2
    /\ Forall (fun row => len row = 2) rows
    /\ List.concat rows
       = map (fun s => Qmake s 32768)
             (int16_seq [x00; x01; xff; xff; x00; x80; xff; x7f])
    /\ Forall (Forall (fun q => (-1 <= q)%Q /\ (q < 1)%Q)) rows.
Proof.
  apply (decode_pcm_frames [x00; x01; xff; xff; x00; x80; xff; x7f] 44100 2).
  - discriminate.
  - reflexivity.
  - lia.
  - reflexivity.
Defined.

(** X2. [decode_pcm] raises in exactly three situations: the buffer is
    empty, its length is odd, or more than one channel is asked for and the
    samples do not divide into whole frames.  Otherwise it returns the
    sample rate it was given and an array holding one sample for every two
    bytes. *)
Theorem decode_pcm_raises_iff
    (pcm_bytes : list byte) (sample_rate channels : Z) :
  (raised (decode_pcm pcm_bytes sample_rate channels)
   <-> pcm_bytes = []
       \/ len pcm_bytes mod 2 = 1
       \/ (1 < channels /\ (len pcm_bytes / 2) mod channels <> 0))
  /\ (forall audio rate,
         decode_pcm pcm_bytes sample_rate channels = inr (audio, rate) ->
         rate = sample_rate /\ size audio = len pcm_bytes / 2).
Proof.
  destruct pcm_bytes as [|b0 rest] eqn:Ebytes.
  { split.
    - split; [intros _; left; reflexivity | intros _; eexists; reflexivity].
    - intros audio rate E. discriminate. }
  rewrite <- Ebytes.
  assert (Hne : pcm_bytes <> []) by (rewrite Ebytes; discriminate).
  clear Ebytes.
  assert (Hparity : len pcm_bytes mod 2 = 0 \/ len pcm_bytes mod 2 = 1).
  { pose proof (Z.mod_pos_bound (len pcm_bytes) 2 ltac:(lia)). lia. }
  destruct Hparity as [Heven|Hodd].
  2:{ rewrite (decode_pcm_odd pcm_bytes sample_rate channels Hodd).
      split.
      - split; [intros _; right; left; exact Hodd | intros _; eexists; reflexivity].
      - intros audio rate E. discriminate. }
  destruct (Z.ltb_spec 1 channels) as [Hgt|Hle].
  - destruct (Z.eq_dec ((len pcm_bytes / 2) mod channels) 0) as [Hdiv|Hndiv].
    + destruct (decode_pcm_multi pcm_bytes sample_rate channels Hne Heven Hgt Hdiv)
        as [rows [E [Hrows _]]].
      rewrite E. split.
      * split.
        -- intros [e He]. discriminate.
        -- intros [E0|[E1|[_ E2]]]; [contradiction | lia | contradiction].
      * intros audio rate Eq. injection Eq as <- <-.
        split; [reflexivity|]. cbn [size]. rewrite Hrows.
        pose proof (Z.div_exact (len pcm_bytes / 2) channels ltac:(lia)) as Hex.
        apply Hex in Hdiv. lia.
    + rewrite (decode_pcm_unfold _ _ _ Hne Heven).
      destruct (Z.ltb_spec 1 channels) as [_|Hle]; [|lia].
      unfold reshape_rows. rewrite len_int16_seq.
      destruct (Z.eqb_spec ((len pcm_bytes / 2) mod channels) 0) as [Hdiv|_];
        [contradiction|].
      cbn [bind raise]. split.
      * split; [intros _; right; right; split; assumption
               | intros _; eexists; reflexivity].
      * intros audio rate Eq. discriminate.
  - rewrite (decode_pcm_low_channel_mono pcm_bytes sample_rate channels Hle).
    rewrite (decode_pcm_mono pcm_bytes sample_rate Hne Heven). split.
    + split.
      * intros [e He]. discriminate.
      * intros [E0|[E1|[E2 _]]]; [contradiction | lia | lia].
    + intros audio rate Eq. injection Eq as <- <-.
      split; [reflexivity|]. cbn [size]. unfold len at 1.
      rewrite length_map. apply len_int16_seq.
Qed.

Lemma decode_pcm_raises_iff_witness :
  raised (decode_pcm [x01; x02; x03; x04] 44100 3)
  /\ (44100 = 44100
      /\ size (Arr2 2 [[Qmake 513 32768; Qmake 1027 32768]])
         = len [x01; x02; x03; x04] / 2).
Proof.
  split.
  - apply (proj1 (decode_pcm_raises_iff [x01; x02; x03; x04] 44100 3)).
    right. right. split; [lia | discriminate].
  - apply (proj2 (decode_pcm_raises_iff [x01; x02; x03; x04] 44100 2)).
    reflexivity.
Defined.

(** ** The streaming session over any transport *)

Section SessionShapes.
Context `{Libraries}.
Import Stream.

Lemma transmit_cases (f : frame) (ws : WebSocket) :
  (exists ws', transmit f ws = (inr tt, ws') /\ wire ws' = wire ws ++ [f])
  \/ (exists e ws', transmit f ws = (inl e, ws') /\ wire ws' = wire ws).
Proof.
  unfold transmit. destruct (faults ws) as [|[e|] fs].
  - left. eexists. split; reflexivity.
  - right. do 2 eexists. split; reflexivity.
  - left. eexists. split; reflexivity.
Qed.

(** The inner [try]/[except] only ever hands the error payload to the
    transport. *)
Lemma process_window_cases (window : list byte) (ws : WebSocket) :
  process_window window ws = send_json error_result ws.
Proof.
  unfold process_window, io_try, io_bind, lift.
  destruct (analyze_window_raises window) as [e ->]. reflexivity.
Qed.

(** What one loop iteration can add to the wire. *)
Lemma session_body_cases (audio_buffer : list byte) (msg : message)
    (ws : WebSocket) :
  (exists kept ws',
      session_body audio_buffer msg ws = (inr (Continue kept), ws')
      /\ (wire ws' = wire ws \/ wire ws' = wire ws ++ [SendJson error_result]))
  \/ (exists ws',
         session_body audio_buffer msg ws = (inr Break, ws')
         /\ wire ws' = wire ws ++ [SendJson stopped_result])
  \/ (exists e ws',
         session_body audio_buffer msg ws = (inl e, ws')
         /\ wire ws' = wire ws).
Proof.
  unfold session_body.
  destruct (msg_bytes msg) as [[chunk|]|].
  - destruct (ingest audio_buffer chunk) as [[window|] kept].
    + unfold io_bind. rewrite process_window_cases. unfold send_json.
      destruct (transmit_cases (SendJson error_result) ws)
        as [[ws' [-> Hw]]|[e [ws' [-> Hw]]]].
      * left. exists kept, ws'. split; [reflexivity | right; exact Hw].
      * right. right. exists e, ws'. split; [reflexivity | exact Hw].
    + left. exists kept, ws. split; [reflexivity | left; reflexivity].
  - right. right. do 2 eexists. split; reflexivity.
  - destruct (msg_text msg) as [[t|]|].
    + destruct (String.eqb _ _).
      * unfold io_bind, send_json.
        destruct (transmit_cases (SendJson stopped_result) ws)
          as [[ws' [-> Hw]]|[e [ws' [-> Hw]]]].
        -- right. left. exists ws'. split; [reflexivity | exact Hw].
        -- right. right. exists e, ws'. split; [reflexivity | exact Hw].
      * left. exists audio_buffer, ws. split; [reflexivity | left; reflexivity].
    + right. right. do 2 eexists. split; reflexivity.
    + left. exists audio_buffer, ws. split; [reflexivity | left; reflexivity].
Qed.

Lemma finish_cases (ws : WebSocket) :
  exists closed ws',
    finish ws = Closed ws' /\ wire ws' = wire ws ++ optional closed (Close 1000).
Proof.
  unfold finish.
  destruct (transmit_cases (Close 1000) ws) as [[ws' [E Hw]]|[e [ws' [E Hw]]]];
    rewrite E; cbn [snd].
  - exists true, ws'. split; [reflexivity | exact Hw].
  - exists false, ws'. split; [reflexivity|].
    rewrite Hw. cbn [optional]. rewrite app_nil_r. reflexivity.
Qed.

Lemma session_loop_grammar (inbox : list (result message)) :
  forall audio_buffer ws,
  exists n,
    match session_loop audio_buffer inbox ws with
    | Awaiting _ ws' =>
        wire ws' = wire ws ++ repeat (SendJson error_result) n
    | Closed ws' =>
        exists stopped closed,
          wire ws' = wire ws ++ repeat (SendJson error_result) n
                     ++ optional stopped (SendJson stopped_result)
                     ++ optional closed (Close 1000)
    | Failed _ _ => False
    end.
Proof.
  induction inbox as [|[e|msg] rest IH]; intros audio_buffer ws;
    cbn [session_loop].
  - exists 0%nat. cbn [repeat]. rewrite app_nil_r. reflexivity.
  - exists 0%nat. destruct (finish_cases ws) as [closed [ws' [-> Hw]]].
    exists false, closed. exact Hw.
  - destruct (session_body_cases audio_buffer msg ws)
      as [[kept [ws1 [-> Hw]]]|[[ws1 [-> Hw]]|[e [ws1 [-> Hw]]]]].
    + destruct (IH kept ws1) as [n Hn].
      destruct Hw as [Hw|Hw]; rewrite Hw in Hn.
      * exists n. exact Hn.
      * exists (S n).
        destruct (session_loop kept rest ws1) as [held ws2|ws2|e ws2];
          [|destruct Hn as [stopped [closed Hn]]; exists stopped, closed|];
          try exact Hn; rewrite Hn, <- !app_assoc; reflexivity.
    + exists 0%nat. destruct (finish_cases ws1) as [closed [ws' [-> Hc]]].
      exists true, closed. rewrite Hc, Hw, <- app_assoc. reflexivity.
    + exists 0%nat. destruct (finish_cases ws1) as [closed [ws' [-> Hc]]].
      exists false, closed. rewrite Hc, Hw. reflexivity.
Qed.

End SessionShapes.

(** X3. Whatever the client sends and however the transport fails, what the
    handler puts on the wire is the accept, then only "Error" results, then
    at most one "Stopped", then at most one close with code 1000.  A
    "Detected" result never goes out, nothing but the close follows
    "Stopped", and a session still waiting for a message has neither
    stopped nor closed. *)
Theorem session_wire_grammar `{Libraries}
    (inbox : list (result Stream.message)) (ws : Stream.WebSocket) :
  match Stream.websocket_audio inbox ws with
  | Stream.Failed _ ws' => Stream.wire ws' = Stream.wire ws
  | Stream.Awaiting _ ws' =>
      exists n,
        Stream.wire ws'
        = Stream.wire ws
          ++ Stream.Accept :: repeat (Stream.SendJson Stream.error_result) n
  | Stream.Closed ws' =>
      exists n stopped closed,
        Stream.wire ws'
        = Stream.wire ws
          ++ Stream.Accept :: repeat (Stream.SendJson Stream.error_result) n
          ++ Stream.optional stopped (Stream.SendJson Stream.stopped_result)
          ++ Stream.optional closed (Stream.Close 1000)
  end.
Proof.
  unfold Stream.websocket_audio.
  destruct (transmit_cases Stream.Accept ws) as [[ws1 [-> Hw]]|[e [ws1 [-> Hw]]]].
  - destruct (session_loop_grammar inbox [] ws1) as [n Hn].
    destruct (Stream.session_loop [] inbox ws1) as [held ws2|ws2|e ws2].
    + exists n. rewrite Hn, Hw, <- app_assoc. reflexivity.
    + destruct Hn as [stopped [closed Hn]]. exists n, stopped, closed.
      rewrite Hn, Hw, <- app_assoc. reflexivity.
    + contradiction.
  - exact Hw.
Qed.

Section MoreSessionFacts.
Context `{Libraries}.
Import Stream.

Lemma session_body_ignores (audio_buffer : list byte) (msg : message)
    (ws : WebSocket) :
  msg_bytes msg = None ->
  (msg_text msg = None
   \/ exists t, msg_text msg = Some (Some t)
                /\ Str.lower (Str.strip t) <> "stop") ->
  session_body audio_buffer msg ws = (inr (Continue audio_buffer), ws).
Proof.
  intros Hbytes Htext. unfold session_body. rewrite Hbytes.
  destruct Htext as [->|[t [-> Hne]]]; [reflexivity|].
  apply String.eqb_neq in Hne. rewrite Hne. reflexivity.
Qed.

Lemma session_loop_skips (pre post : list (result message)) (msg : message) :
  msg_bytes msg = None ->
  (msg_text msg = None
   \/ exists t, msg_text msg = Some (Some t)
                /\ Str.lower (Str.strip t) <> "stop") ->
  forall audio_buffer ws,
    session_loop audio_buffer (pre ++ inr msg :: post) ws
    = session_loop audio_buffer (pre ++ post) ws.
Proof.
  intros Hbytes Htext.
  induction pre as [|[e|m] pre IH]; intros audio_buffer ws;
    cbn [app session_loop].
  - rewrite (session_body_ignores _ _ _ Hbytes Htext). reflexivity.
  - reflexivity.
  - destruct (session_body audio_buffer m ws) as [[e|[kept|]] ws1];
      [reflexivity | apply IH | reflexivity].
Qed.

Lemma window_decodes (audio_buffer : list byte) :
  TARGET_SIZE <= len audio_buffer ->
  decode_pcm (slice_to TARGET_SIZE audio_buffer) SAMPLE_RATE CHANNELS
  = inr (Arr1 (map (fun s => Qmake s 32768)
                   (int16_seq (slice_to TARGET_SIZE audio_buffer))), 44100).
Proof.
  intros Hfull. pose proof (len_window audio_buffer Hfull) as Hlen.
  apply decode_pcm_mono.
  - intros Hnil. apply len_nil_iff in Hnil. rewrite Hnil in Hlen. discriminate.
  - rewrite Hlen. reflexivity.
Qed.

End MoreSessionFacts.

(** X4. A message that is neither binary nor a stop command, that is a text
    frame with other content or a message with neither key such as a
    disconnect notice, is skipped: wherever it occurs in the stream, the
    session runs exactly as if it had not been sent. *)
Theorem other_messages_are_skipped `{Libraries}
    (pre post : list (result Stream.message)) (msg : Stream.message)
    (audio_buffer : list byte) (ws : Stream.WebSocket) :
  Stream.msg_bytes msg = None ->
  (Stream.msg_text msg = None
   \/ exists t, Stream.msg_text msg = Some (Some t)
                /\ Str.lower (Str.strip t) <> "stop") ->
  Stream.session_loop audio_buffer (pre ++ inr msg :: post) ws
  = Stream.session_loop audio_buffer (pre ++ post) ws.
Proof. intros Hbytes Htext. apply session_loop_skips; assumption. Qed.

Lemma other_messages_are_skipped_witness :
  @Stream.session_loop Double.working [x07]
    ([inr (Stream.binary [x01])] ++ inr (Stream.text "pause")
       :: [inr (Stream.text "stop")])
    Stream.fresh
  = @Stream.session_loop Double.working [x07]
      ([inr (Stream.binary [x01])] ++ [inr (Stream.text "stop")])
      Stream.fresh.
Proof.
  apply (@other_messages_are_skipped Double.working).
  - reflexivity.
  - right. exists "pause". split; [reflexivity | discriminate].
Defined.

(** X5. A message whose "bytes" key is present with the value [None] makes
    [extend] raise: the session ends at once through the [finally] block,
    without a "Stopped" result even if the same message carries the text
    "stop", and the rest of the stream is not read. *)
Theorem bytes_none_ends_session `{Libraries}
    (msg : Stream.message) (audio_buffer : list byte)
    (rest : list (result Stream.message)) (ws : Stream.WebSocket) :
  Stream.msg_bytes msg = Some None ->
  Stream.session_loop audio_buffer (inr msg :: rest) ws = Stream.finish ws
  /\ (Stream.faults ws = [] ->
      Stream.session_loop audio_buffer (inr msg :: rest) ws
      = Stream.Closed
          {| Stream.faults := [];
             Stream.wire := Stream.wire ws ++ [Stream.Close 1000] |}).
Proof.
  intros Hbytes.
  assert (Hloop : Stream.session_loop audio_buffer (inr msg :: rest) ws
                  = Stream.finish ws).
  { cbn [Stream.session_loop]. unfold Stream.session_body.
    rewrite Hbytes. reflexivity. }
  split; [exact Hloop|].
  intros Hok. rewrite Hloop. unfold Stream.finish.
  rewrite transmit_reliable by exact Hok. reflexivity.
Qed.

Lemma bytes_none_ends_session_witness :
  @Stream.session_loop Double.working [x01]
    [inr {| Stream.msg_bytes := Some None;
            Stream.msg_text := Some (Some "stop") |};
     inr (Stream.binary [x02])]
    Stream.fresh
  = Stream.Closed
      {| Stream.faults := []; Stream.wire := [Stream.Close 1000] |}.
Proof.
  apply (proj2 (@bytes_none_ends_session Double.working
                  {| Stream.msg_bytes := Some None;
                     Stream.msg_text := Some (Some "stop") |}
                  [x01] [inr (Stream.binary [x02])] Stream.fresh
                  eq_refl)).
  reflexivity.
Defined.

(** X6. If the transport raises when the result of a completed window is
    sent, that exception leaves the loop: nothing is sent for the window,
    no further message is read, and the handler goes straight to closing
    the connection. *)
Theorem failed_report_ends_session `{Libraries}
    (audio_buffer chunk : list byte) (rest : list (result Stream.message))
    (ws : Stream.WebSocket) (e : exn) (later : list (option exn)) :
  Stream.faults ws = Some e :: later ->
  Stream.TARGET_SIZE <= len (audio_buffer ++ chunk) ->
  Stream.session_loop audio_buffer (inr (Stream.binary chunk) :: rest) ws
  = Stream.finish {| Stream.faults := later; Stream.wire := Stream.wire ws |}.
Proof.
  intros Hfault Hfull. cbn [Stream.session_loop]. unfold Stream.session_body.
  cbn [Stream.msg_bytes Stream.binary].
  rewrite (ingest_full _ _ Hfull). unfold Stream.io_bind.
  rewrite process_window_cases. unfold Stream.send_json, Stream.transmit.
  rewrite Hfault. reflexivity.
Qed.

Lemma failed_report_ends_session_witness :
  @Stream.session_loop Double.working []
    [inr (Stream.binary (Double.silence 441000)); inr (Stream.text "stop")]
    {| Stream.faults := [Some (ExternalError "connection lost")];
       Stream.wire := [Stream.Accept] |}
  = Stream.Closed
      {| Stream.faults := [];
         Stream.wire := [Stream.Accept; Stream.Close 1000] |}.
Proof.
  apply (@failed_report_ends_session Double.working
           [] (Double.silence 441000) [inr (Stream.text "stop")]
           {| Stream.faults := [Some (ExternalError "connection lost")];
              Stream.wire := [Stream.Accept] |}
           (ExternalError "connection lost") []).
  - reflexivity.
  - cbn [app]. rewrite len_silence, TARGET_SIZE_eq; lia.
Defined.

(** X7. Every window the accumulator hands out decodes without error: the
    decoder returns 220500 mono samples at 44100 Hz, so neither the
    decoder's failure paths nor the handler's empty-array check can be
    reached from the streaming loop. *)
Theorem every_window_decodes
    (audio_buffer chunk window kept : list byte) :
  Stream.ingest audio_buffer chunk = (Some window, kept) ->
  exists samples,
    decode_pcm window Stream.SAMPLE_RATE Stream.CHANNELS
    = inr (Arr1 samples, 44100)
    /\ len samples = 220500
    /\ size (Arr1 samples) <> 0
    /\ Forall (fun q => (-1 <= q)%Q /\ (q < 1)%Q) samples.
Proof.
  intros Hingest.
  destruct (ingest_cases audio_buffer chunk) as [[Hc E]|[Hc E]];
    rewrite E in Hingest; [|discriminate].
  injection Hingest as <- _.
  pose proof (len_window _ Hc) as Hlen.
  exists (map (fun s => Qmake s 32768)
              (int16_seq (slice_to Stream.TARGET_SIZE (audio_buffer ++ chunk)))).
  assert (Hsamples :
            len (map (fun s => Qmake s 32768)
                     (int16_seq (slice_to Stream.TARGET_SIZE (audio_buffer ++ chunk))))
            = 220500).
  { unfold len at 1. rewrite length_map.
    pose proof (len_int16_seq (slice_to Stream.TARGET_SIZE (audio_buffer ++ chunk))) as Hs.
    unfold len at 1 in Hs. rewrite Hs, Hlen. reflexivity. }
  split; [apply window_decodes; exact Hc|].
  split; [exact Hsamples|].
  split; [cbn [size]; rewrite Hsamples; discriminate|].
  apply Forall_map. eapply Forall_impl; [|apply int16_seq_range].
  intros s Hs. apply unit_range. exact Hs.
Qed.

Lemma every_window_decodes_witness :
  exists samples,
    decode_pcm (slice_to Stream.TARGET_SIZE
                  (Double.silence 440000 ++ Double.silence 2000))
      Stream.SAMPLE_RATE Stream.CHANNELS
    = inr (Arr1 samples, 44100)
    /\ len samples = 220500
    /\ size (Arr1 samples) <> 0
    /\ Forall (fun q => (-1 <= q)%Q /\ (q < 1)%Q) samples.
Proof.
  apply (every_window_decodes (Double.silence 440000) (Double.silence 2000)
           (slice_to Stream.TARGET_SIZE
              (Double.silence 440000 ++ Double.silence 2000)) []).
  apply ingest_full.
  rewrite len_app, !len_silence, TARGET_SIZE_eq by lia. lia.
Defined.

(** ** The accumulator over a stream of chunks *)

Section FeedFacts.
Import Stream.

Lemma feed_conserves (chunks : list (list byte)) :
  forall audio_buffer,
    TARGET_SIZE * len (fst (feed audio_buffer chunks))
    + len (snd (feed audio_buffer chunks))
    <= len audio_buffer + len (List.concat chunks)
    /\ len (fst (feed audio_buffer chunks)) <= len chunks.
Proof.
  pose proof TARGET_SIZE_eq as Htarget.
  induction chunks as [|chunk rest IH]; intros audio_buffer;
    cbn [feed List.concat fst snd].
  - change (len (@nil (list byte))) with 0.
    change (len (@nil byte)) with 0. lia.
  - rewrite len_app, (len_cons chunk rest).
    pose proof (len_nonneg chunk). pose proof (len_nonneg audio_buffer).
    destruct (ingest_cases audio_buffer chunk) as [[Hc E]|[Hc E]]; rewrite E.
    + specialize (IH []). destruct (feed [] rest) as [windows left].
      cbn [fst snd] in *. rewrite len_cons. rewrite len_app in Hc.
      change (len (@nil byte)) with 0 in IH. lia.
    + specialize (IH (audio_buffer ++ chunk)). rewrite len_app in IH. lia.
Qed.

End FeedFacts.

(** X9. The accumulator never hands out more than it took in: the bytes of
    all windows plus the bytes still buffered are at most the bytes it
    started with plus the bytes received.  It also hands out at most one
    window per chunk, however large a chunk is. *)
Theorem feed_never_duplicates
    (audio_buffer : list byte) (chunks : list (list byte)) :
  441000 * len (fst (Stream.feed audio_buffer chunks))
  + len (snd (Stream.feed audio_buffer chunks))
  <= len audio_buffer + len (List.concat chunks)
  /\ len (fst (Stream.feed audio_buffer chunks)) <= len chunks.
Proof. rewrite <- TARGET_SIZE_eq. apply feed_conserves. Qed.

(** X10. Over a transport that does not fail, a stream made of binary frames
    only produces exactly one result per completed window, each the "Error"
    payload, and leaves the handler waiting with the remainder the
    accumulator holds. *)
Theorem binary_stream_one_result_per_window `{Libraries}
    (chunks : list (list byte)) :
  Stream.websocket_audio
    (map (fun chunk => inr (Stream.binary chunk)) chunks) Stream.fresh
  = Stream.Awaiting (snd (Stream.feed [] chunks))
      {| Stream.faults := [];
         Stream.wire :=
           Stream.Accept
           :: repeat (Stream.SendJson Stream.error_result)
                     (List.length (fst (Stream.feed [] chunks))) |}.
Proof.
  unfold Stream.websocket_audio.
  rewrite transmit_reliable by reflexivity.
  rewrite <- (app_nil_r (map _ chunks)).
  rewrite session_loop_binary by reflexivity.
  cbn [Stream.session_loop]. rewrite after_after.
  rewrite map_const. reflexivity.
Qed.

(** ** The one-shot endpoint and the analyzer helpers *)

Section OneShotOutcomes.
Context `{Libraries}.
Import OneShot.


End OneShotOutcomes.


(** X12. [find_bpm] returns exactly when the beat tracker returns its tempo
    as a non-empty array, and then the result is the first tempo with three
    decimals.  On the other shapes the indexing [find_bpm[0]] raises: an
    [IndexError] on a numpy scalar, and a [TypeError] on the plain float
    librosa returns for a signal without onsets. *)
Theorem find_bpm_returns_iff `{Libraries} (audio : ndarray Q) (bpm : string) :
  (find_bpm audio = inr bpm
   <-> exists x xs beats,
         beat_track audio 44100 = inr (TempoArray (x :: xs), beats)
         /\ bpm = format_fixed 3 x)
  /\ (forall x beats,
         beat_track audio 44100 = inr (TempoScalar x, beats) ->
         find_bpm audio
         = inl (IndexError "invalid index to scalar variable."))
  /\ (forall x beats,
         beat_track audio 44100 = inr (TempoFloat x, beats) ->
         find_bpm audio
         = inl (TypeError "'float' object is not subscriptable")).
Proof.
  unfold find_bpm, detect_BPM. split; [|split].
  - split.
    + destruct (beat_track audio 44100) as [e|[[x|[|x xs]|x] beats]];
        cbn; intros E; try discriminate.
      injection E as <-. exists x, xs, beats. split; reflexivity.
    + intros [x [xs [beats [-> ->]]]]. reflexivity.
  - intros x beats ->. reflexivity.
  - intros x beats ->. reflexivity.
Qed.

Lemma find_bpm_returns_iff_witness :
  @find_bpm Double.working (Arr1 []) = inr "120.000"
  /\ @find_bpm Double.silent_tempo (Arr1 [])
     = inl (TypeError "'float' object is not subscriptable").
Proof.
  split.
  - apply (proj2 (proj1 (@find_bpm_returns_iff Double.working (Arr1 [])
                           "120.000"))).
    exists 120%Q, [], []. split; reflexivity.
  - apply (proj2 (proj2 (@find_bpm_returns_iff Double.silent_tempo (Arr1 [])
                           "")) 0%Q []).
    reflexivity.
Defined.

(** ** The chroma key detector *)

Section ArgmaxFacts.
Import KeyDetection.

Lemma first_maximum_snoc_keep (pre : list Q) (i : nat) (x : Q) :
  first_maximum pre i -> (x <= nth i pre 0)%Q ->
  first_maximum (pre ++ [x]) i.
Proof.
  intros [Hi [Hmax Hfirst]] Hx.
  assert (Ei : nth i (pre ++ [x]) 0%Q = nth i pre 0%Q) by (apply app_nth1; exact Hi).
  split; [rewrite length_app; cbn; lia|]. split.
  - intros j Hj. rewrite length_app in Hj. cbn [List.length] in Hj. rewrite Ei.
    destruct (Nat.eq_dec j (List.length pre)) as [->|Hne].
    + rewrite app_nth2 by lia. rewrite Nat.sub_diag. exact Hx.
    + rewrite app_nth1 by lia. apply Hmax. lia.
  - intros j Hj. rewrite Ei, app_nth1 by lia. apply Hfirst. exact Hj.
Qed.

Lemma first_maximum_snoc_new (pre : list Q) (i : nat) (x : Q) :
  first_maximum pre i -> (nth i pre 0 < x)%Q ->
  first_maximum (pre ++ [x]) (List.length pre).
Proof.
  intros [Hi [Hmax Hfirst]] Hx.
  assert (Ex : nth (List.length pre) (pre ++ [x]) 0%Q = x)
    by (rewrite app_nth2 by lia; rewrite Nat.sub_diag; reflexivity).
  split; [rewrite length_app; cbn; lia|]. rewrite Ex. split.
  - intros j Hj. rewrite length_app in Hj. cbn [List.length] in Hj.
    destruct (Nat.eq_dec j (List.length pre)) as [->|Hne].
    + rewrite Ex. apply Qle_refl.
    + rewrite app_nth1 by lia. apply Qlt_le_weak.
      eapply Qle_lt_trans; [apply Hmax; lia | exact Hx].
  - intros j Hj. rewrite app_nth1 by lia.
    eapply Qle_lt_trans; [apply Hmax; lia | exact Hx].
Qed.

Lemma argmax_from_first_maximum (l : list Q) :
  forall pre i best index,
    first_maximum pre i ->
    best = nth i pre 0%Q -> index = List.length pre ->
    first_maximum (pre ++ l) (argmax_from i best index l).
Proof.
  induction l as [|x rest IH]; intros pre i best index Hpre -> ->;
    cbn [argmax_from].
  - rewrite app_nil_r. exact Hpre.
  - assert (Hi : (i < List.length pre)%nat) by apply Hpre.
    replace (pre ++ x :: rest) with ((pre ++ [x]) ++ rest)
      by (rewrite <- app_assoc; reflexivity).
    assert (Hlen : S (List.length pre) = List.length (pre ++ [x]))
      by (rewrite length_app; cbn; lia).
    destruct (Qle_bool x (nth i pre 0%Q)) eqn:Ecmp.
    + apply Qle_bool_iff in Ecmp.
      apply IH; [apply first_maximum_snoc_keep; assumption | | exact Hlen].
      symmetry. apply app_nth1. exact Hi.
    + assert (Hlt : (nth i pre 0 < x)%Q).
      { apply Qnot_le_lt. intros Hle. apply Qle_bool_iff in Hle. congruence. }
      apply IH; [apply (first_maximum_snoc_new pre i x); assumption | | exact Hlen].
      rewrite app_nth2 by lia. rewrite Nat.sub_diag. reflexivity.
Qed.

Lemma argmax_first_maximum (a : list Q) :
  a <> [] -> exists i, argmax a = inr i /\ first_maximum a i.
Proof.
  destruct a as [|x rest]; [contradiction|]. intros _.
  exists (argmax_from 0 x 1 rest). split; [reflexivity|].
  apply (argmax_from_first_maximum rest [x] 0%nat x 1%nat);
    [|reflexivity|reflexivity].
  split; [cbn; lia|]. split.
  - intros j Hj. cbn in Hj. assert (j = 0%nat) by lia. subst j. apply Qle_refl.
  - intros j Hj. lia.
Qed.

Lemma keys_cover (i : nat) :
  (i < 12)%nat -> exists k, nth_error keys i = Some k /\ In k keys.
Proof.
  intros Hi. destruct (nth_error keys i) as [k|] eqn:E.
  - exists k. split; [reflexivity | eapply nth_error_In; exact E].
  - apply nth_error_None in E. cbn in E. lia.
Qed.

End ArgmaxFacts.

(** X13. When the chromagram has between one and twelve pitch-class totals,
    [detect_key] returns the name, taken from the twelve-entry table, of
    the pitch class whose total is largest; among equal largest totals the
    lowest pitch class wins. *)
Theorem detect_key_first_maximum `{ChromaLibrary}
    (audio : ndarray Q) (sample_rate : Z) (sums : list Q) :
  chroma_sums audio sample_rate = inr sums ->
  sums <> [] -> (List.length sums <= 12)%nat ->
  exists i key,
    KeyDetection.detect_key audio sample_rate = inr key
    /\ nth_error KeyDetection.keys i = Some key
    /\ (forall j, (j < List.length sums)%nat ->
                  (nth j sums 0 <= nth i sums 0)%Q)
    /\ (forall j, (j < i)%nat -> (nth j sums 0 < nth i sums 0)%Q).
Proof.
  intros Hsums Hne Hlen.
  destruct (argmax_first_maximum sums Hne) as [i [Harg [Hi [Hmax Hfirst]]]].
  destruct (keys_cover i ltac:(lia)) as [key [Hkey _]].
  exists i, key. unfold KeyDetection.detect_key.
  rewrite Hsums. cbn [bind]. rewrite Harg. cbn [bind].
  unfold KeyDetection.list_index. rewrite Hkey.
  repeat split; assumption.
Qed.

Lemma detect_key_first_maximum_witness :
  exists i key,
    @KeyDetection.detect_key Stub.chroma (Arr1 []) 44100 = inr key
    /\ nth_error KeyDetection.keys i = Some key
    /\ (forall j, (j < List.length [1; 0; 5; 2; 0; 3; 0; 4; 0; 5; 1; 0]%Q)%nat ->
                  (nth j [1; 0; 5; 2; 0; 3; 0; 4; 0; 5; 1; 0] 0
                   <= nth i [1; 0; 5; 2; 0; 3; 0; 4; 0; 5; 1; 0] 0)%Q)
    /\ (forall j, (j < i)%nat ->
                  (nth j [1; 0; 5; 2; 0; 3; 0; 4; 0; 5; 1; 0] 0
                   < nth i [1; 0; 5; 2; 0; 3; 0; 4; 0; 5; 1; 0] 0)%Q).
Proof.
  apply (@detect_key_first_maximum Stub.chroma (Arr1 []) 44100
           [1; 0; 5; 2; 0; 3; 0; 4; 0; 5; 1; 0]%Q).
  - reflexivity.
  - discriminate.
  - cbn. lia.
Defined.

Example detect_key_tie_goes_to_lower_pitch :
  @KeyDetection.detect_key Stub.chroma (Arr1 []) 44100 = inr "D".
Proof. reflexivity. Qed.

(** ** The piano sound bank *)

Section PianoFacts.
Import PianoSound.

Lemma dict_get_set {V} (d : list (string * V)) (k k' : string) (v : V) :
  dict_get (dict_set d k' v) k
  = if String.eqb k' k then Some v else dict_get d k.
Proof.
  induction d as [|[k0 v0] rest IH]; cbn [dict_set dict_get].
  - destruct (String.eqb k' k); reflexivity.
  - destruct (String.eqb_spec k0 k') as [->|Hne]; cbn [dict_get].
    + destruct (String.eqb k' k); reflexivity.
    + destruct (String.eqb_spec k0 k) as [->|Hk].
      * apply String.eqb_neq in Hne. rewrite String.eqb_sym, Hne. reflexivity.
      * exact IH.
Qed.

Lemma load_all_get `{SoundBackend} (notes : list string) :
  forall sounds k,
    dict_get (load_all sounds notes) k
    = if existsb (String.eqb k) notes then Some (load_note k)
      else dict_get sounds k.
Proof.
  induction notes as [|note rest IH]; intros sounds k; cbn [load_all existsb].
  - reflexivity.
  - rewrite IH, dict_get_set.
    destruct (existsb (String.eqb k) rest); [rewrite orb_true_r; reflexivity|].
    rewrite orb_false_r, (String.eqb_sym k note).
    destruct (String.eqb_spec note k) as [->|_]; reflexivity.
Qed.

Lemma existsb_eqb_In (k : string) (l : list string) :
  existsb (String.eqb k) l = true <-> In k l.
Proof.
  rewrite existsb_exists. split.
  - intros [x [Hin E]]. apply String.eqb_eq in E. subst x. exact Hin.
  - intros Hin. exists k. split; [exact Hin | apply String.eqb_refl].
Qed.

End PianoFacts.

(** X14. [piano_keys] splits the notes into naturals and accidentals: a note
    is a white key exactly when it is one of the notes and has no "#" in its
    name, a black key exactly when it is one of the notes and has one, and
    no note is lost or duplicated.  For the twelve notes of the instrument
    this gives the seven naturals and the five sharps, in keyboard order. *)
Theorem piano_keys_partition (notes : list string) :
  (forall n, In n (fst (PianoSound.piano_keys notes))
             <-> In n notes /\ PianoSound.has_sharp n = false)
  /\ (forall n, In n (snd (PianoSound.piano_keys notes))
                <-> In n notes /\ PianoSound.has_sharp n = true)
  /\ (List.length (fst (PianoSound.piano_keys notes))
      + List.length (snd (PianoSound.piano_keys notes))
      = List.length notes)%nat
  /\ PianoSound.piano_keys PianoSound.notes
     = (["C4"; "D4"; "E4"; "F4"; "G4"; "A4"; "B4"],
        ["C#4"; "D#4"; "F#4"; "G#4"; "A#4"]).
Proof.
  unfold PianoSound.piano_keys. cbn [fst snd].
  split; [|split; [|split]].
  - intros n. rewrite filter_In, negb_true_iff. reflexivity.
  - intros n. rewrite filter_In. reflexivity.
  - induction notes as [|n rest IH]; cbn [filter List.length]; [reflexivity|].
    destruct (PianoSound.has_sharp n); cbn [negb List.length]; lia.
  - reflexivity.
Qed.

Lemma piano_keys_partition_witness :
  In "F#4" (snd (PianoSound.piano_keys PianoSound.notes))
  /\ (In "F4" PianoSound.notes /\ PianoSound.has_sharp "F4" = false).
Proof.
  destruct (piano_keys_partition PianoSound.notes) as [Hwhite [Hblack _]].
  split.
  - apply (proj2 (Hblack "F#4")). split; [cbn; tauto | reflexivity].
  - apply (proj1 (Hwhite "F4")). cbn. tauto.
Defined.

(** X15. [piano_sounds] builds a dict with an entry for every note and for
    nothing else.  The entry is the loaded sound at full volume when the
    file exists and loading it succeeds, and [None] when the file is
    missing or the mixer raises; so [get] on it never fails, and a missing
    or broken sample silences one key without affecting the others. *)
Theorem piano_sounds_lookup `{SoundBackend} (notes : list string) (k : string) :
  (~ In k notes -> PianoSound.dict_get (PianoSound.piano_sounds notes) k = None)
  /\ (In k notes ->
      (path_exists (PianoSound.sound_file k) = false ->
       PianoSound.dict_get (PianoSound.piano_sounds notes) k = Some None)
      /\ (raised (mixer_Sound (PianoSound.sound_file k)) ->
          PianoSound.dict_get (PianoSound.piano_sounds notes) k = Some None)
      /\ (forall loaded sound,
             path_exists (PianoSound.sound_file k) = true ->
             mixer_Sound (PianoSound.sound_file k) = inr loaded ->
             set_volume loaded 1 = inr sound ->
             PianoSound.dict_get (PianoSound.piano_sounds notes) k
             = Some (Some sound))).
Proof.
  unfold PianoSound.piano_sounds. rewrite load_all_get. split.
  - intros Hnot.
    destruct (existsb (String.eqb k) notes) eqn:E; [|reflexivity].
    apply existsb_eqb_In in E. contradiction.
  - intros Hin. apply existsb_eqb_In in Hin. rewrite Hin.
    unfold PianoSound.load_note. split; [|split].
    + intros ->. reflexivity.
    + intros [e ->].
      destruct (path_exists (PianoSound.sound_file k)); reflexivity.
    + intros loaded sound Hex Hload Hvol. rewrite Hex, Hload.
      cbn [bind]. rewrite Hvol. reflexivity.
Qed.

Lemma piano_sounds_lookup_witness :
  PianoSound.dict_get (@PianoSound.piano_sounds Stub.sounds PianoSound.notes) "H4"
  = None
  /\ PianoSound.dict_get (@PianoSound.piano_sounds Stub.sounds PianoSound.notes) "E4"
     = Some None
  /\ PianoSound.dict_get (@PianoSound.piano_sounds Stub.sounds PianoSound.notes) "D4"
     = Some None
  /\ PianoSound.dict_get (@PianoSound.piano_sounds Stub.sounds PianoSound.notes) "C4"
     = Some (Some "sounds/C4.wav").
Proof.
  assert (Hin : forall n, existsb (String.eqb n) PianoSound.notes = true ->
                          In n PianoSound.notes)
    by (intros n; apply existsb_eqb_In).
  split; [|split; [|split]].
  - apply (proj1 (@piano_sounds_lookup Stub.sounds PianoSound.notes "H4")).
    intros Hbad. apply existsb_eqb_In in Hbad. discriminate.
  - apply (proj1 (proj2 (@piano_sounds_lookup Stub.sounds PianoSound.notes "E4")
                    (Hin "E4" eq_refl))).
    reflexivity.
  - apply (proj1 (proj2 (proj2 (@piano_sounds_lookup Stub.sounds
                                  PianoSound.notes "D4")
                           (Hin "D4" eq_refl)))).
    exists (ExternalError "Unable to open file"). reflexivity.
  - apply (proj2 (proj2 (proj2 (@piano_sounds_lookup Stub.sounds
                                  PianoSound.notes "C4")
                           (Hin "C4" eq_refl)))
             "sounds/C4.wav" "sounds/C4.wav").
    + reflexivity.
    + reflexivity.
    + reflexivity.
Defined.
